(** * dxf-parser: the incremental (stream) scanner

    A shallow embedding of [src/DxfStreamScanner.ts] and [src/errors.ts]:
    the line splitter behind [addChunk], the group cursor
    ([hasNext], [next], [peek], [rewind]), value coercion by group code, the
    error classes, and the event handlers of [parseStreamIncremental].

    JavaScript strings are sequences of UTF-16 code units; they are modelled
    as lists of code units so that line terminators, [trim] and [parseInt]
    see the same alphabet as the host.  Integers that the scanner computes
    with (pointer, line counter, group codes) are modelled in [Z]: every
    operation on them stays exact in a double far beyond any buffer size. *)

From Stdlib Require Import ZArith NArith List String Ascii Bool Lia DecimalString.
Import ListNotations.

Local Open Scope Z_scope.
Local Open Scope list_scope.

(** ** Host strings *)

Module JS.

Definition codeUnit := N.
Definition jsstring := list codeUnit.

(** A source literal, as the code units of its (ASCII) characters. *)
Definition lit (s : string) : jsstring :=
  map N_of_ascii (list_ascii_of_string s).

Definition jsstring_eqb (a b : jsstring) : bool :=
  if list_eq_dec N.eq_dec a b then true else false.

Definition CR : codeUnit := 13%N.
Definition LF : codeUnit := 10%N.

(** [WhiteSpace] and [LineTerminator] of ECMA-262: what [trim] strips and
    what [parseInt] skips. *)
Definition isWhiteSpace (c : codeUnit) : bool :=
  ((9 <=? c) && (c <=? 13) ||
   (c =? 32) || (c =? 160) || (c =? 5760) ||
   (8192 <=? c) && (c <=? 8202) ||
   (c =? 8232) || (c =? 8233) || (c =? 8239) || (c =? 8287) ||
   (c =? 12288) || (c =? 65279))%N.

Fixpoint trimStart (s : jsstring) : jsstring :=
  match s with
  | c :: rest => if isWhiteSpace c then trimStart rest else s
  | [] => []
  end.

Definition trimEnd (s : jsstring) : jsstring := rev (trimStart (rev s)).

(** [String.prototype.trim]. *)
Definition trim (s : jsstring) : jsstring := trimEnd (trimStart s).

(** A JavaScript number that came out of integer parsing: [NaN] or an
    integer.  (Rounding to the nearest double, which only touches values
    beyond 2^53 and is monotone, is not modelled.) *)
Inductive number :=
| NaN
| Num (z : Z).

Definition number_eqb (a b : number) : bool :=
  match a, b with
  | Num x, Num y => x =? y
  | _, _ => false
  end.

(** [a <= b] and [a >= b] on numbers: false as soon as one side is NaN. *)
Definition le (a b : number) : bool :=
  match a, b with
  | Num x, Num y => x <=? y
  | _, _ => false
  end.

Definition ge (a b : number) : bool := le b a.

(** The value of a digit in radix [r], if [c] is one. *)
Definition digitValue (r : Z) (c : codeUnit) : option Z :=
  let d :=
    if ((48 <=? c) && (c <=? 57))%N then Some (Z.of_N c - 48)
    else if ((97 <=? c) && (c <=? 122))%N then Some (Z.of_N c - 87)
    else if ((65 <=? c) && (c <=? 90))%N then Some (Z.of_N c - 55)
    else None in
  match d with
  | Some v => if v <? r then Some v else None
  | None => None
  end.

(** The longest prefix of radix-[r] digits, most significant first. *)
Fixpoint digitPrefix (r : Z) (s : jsstring) : list Z :=
  match s with
  | c :: rest =>
      match digitValue r c with
      | Some v => v :: digitPrefix r rest
      | None => []
      end
  | [] => []
  end.

Definition mathInt (r : Z) (ds : list Z) : Z :=
  fold_left (fun acc d => acc * r + d) ds 0.

(** [parseInt(string)] with no radix argument (ECMA-262, 19.2.5): skip
    white space, read a sign, strip a [0x]/[0X] prefix (radix 16, otherwise
    radix 10), read the longest digit prefix; NaN when it is empty. *)
Definition parseInt (inputString : jsstring) : number :=
  let text := trimStart inputString in
  let sign : Z :=
    match text with
    | c :: _ => if (c =? 45)%N then -1 else 1
    | [] => 1
    end in
  let text :=
    match text with
    | c :: rest => if ((c =? 43) || (c =? 45))%N then rest else text
    | [] => text
    end in
  let '(radix, text) :=
    match text with
    | z :: x :: rest =>
        if ((z =? 48) && ((x =? 120) || (x =? 88)))%N then (16, rest) else (10, text)
    | _ => (10, text)
    end in
  match digitPrefix radix text with
  | [] => NaN
  | ds => Num (sign * mathInt radix ds)
  end.

(** [ToString] of a possibly [undefined] array element, as [parseInt]
    applies it to its argument. *)
Definition ToString (x : option jsstring) : jsstring :=
  match x with
  | Some s => s
  | None => lit "undefined"
  end.

(** [parseFloat] yields an IEEE double.  Floating point arithmetic is not
    part of this development: the double is kept as the uninterpreted
    application of the host function to its argument text. *)
Inductive double :=
| parseFloat (text : jsstring).

(** [Number::toString] for an integer (plain decimal below 10^21). *)
Definition Z_toString (z : Z) : jsstring :=
  lit (NilZero.string_of_int (Z.to_int z)).

Definition number_toString (n : number) : jsstring :=
  match n with
  | NaN => lit "NaN"
  | Num z => Z_toString z
  end.

(** [Array.prototype.join]. *)
Fixpoint join (sep : jsstring) (parts : list jsstring) : jsstring :=
  match parts with
  | [] => []
  | [p] => p
  | p :: rest => p ++ sep ++ join sep rest
  end.

(** [s.split(/\r\n|\r|\n/)]: the regular expression is tried at every
    position, its alternatives in order, so a carriage return directly
    followed by a line feed is one separator.  The result is never empty:
    the text after the last separator (possibly the empty string) is its
    last element. *)
Fixpoint split (s : jsstring) : list jsstring :=
  match s with
  | [] => [[]]
  | c :: rest =>
      if (c =? CR)%N then
        match rest with
        | d :: rest' => if (d =? LF)%N then [] :: split rest' else [] :: split rest
        | [] => [] :: split rest
        end
      else if (c =? LF)%N then [] :: split rest
      else
        match split rest with
        | line :: more => (c :: line) :: more
        | [] => [[c]]
        end
  end.

(** The array element at a (possibly negative or too large) index:
    [undefined] outside the array. *)
Definition index {A} (l : list A) (i : Z) : option A :=
  if i <? 0 then None else nth_error l (Z.to_nat i).

Definition hex4 (c : codeUnit) : jsstring :=
  let digit (n : N) : codeUnit :=
    (if n <? 10 then 48 + n else 87 + n)%N in
  [digit (N.modulo (N.div c 4096) 16); digit (N.modulo (N.div c 256) 16);
   digit (N.modulo (N.div c 16) 16); digit (N.modulo c 16)].

Definition isLeadingSurrogate (c : codeUnit) : bool :=
  ((55296 <=? c) && (c <=? 56319))%N.
Definition isTrailingSurrogate (c : codeUnit) : bool :=
  ((56320 <=? c) && (c <=? 57343))%N.

Definition unicodeEscape (c : codeUnit) : jsstring := lit "\u" ++ hex4 c.

Fixpoint quoteBody (s : jsstring) : jsstring :=
  match s with
  | [] => []
  | c :: rest =>
      if (c =? 8)%N then lit "\b" ++ quoteBody rest
      else if (c =? 9)%N then lit "\t" ++ quoteBody rest
      else if (c =? 10)%N then lit "\n" ++ quoteBody rest
      else if (c =? 12)%N then lit "\f" ++ quoteBody rest
      else if (c =? 13)%N then lit "\r" ++ quoteBody rest
      else if (c =? 34)%N then [92; 34]%N ++ quoteBody rest
      else if (c =? 92)%N then [92; 92]%N ++ quoteBody rest
      else if (c <? 32)%N then unicodeEscape c ++ quoteBody rest
      else if isLeadingSurrogate c then
        match rest with
        | d :: rest' =>
            if isTrailingSurrogate d then c :: d :: quoteBody rest'
            else unicodeEscape c ++ quoteBody rest
        | [] => unicodeEscape c
        end
      else if isTrailingSurrogate c then unicodeEscape c ++ quoteBody rest
      else c :: quoteBody rest
  end.

(** [String.prototype.startsWith] and [String.prototype.includes]. *)
Fixpoint startsWith (s searchString : jsstring) : bool :=
  match searchString, s with
  | [], _ => true
  | c :: more, d :: rest => (c =? d)%N && startsWith rest more
  | _ :: _, [] => false
  end.

Fixpoint includes (s searchString : jsstring) : bool :=
  startsWith s searchString
  || match s with
     | [] => false
     | _ :: rest => includes rest searchString
     end.

(** [JSON.stringify] of a string. *)
Definition JSON_stringify (s : jsstring) : jsstring :=
  [34%N] ++ quoteBody s ++ [34%N].

End JS.

Import JS.

(** ** Error classes ([src/errors.ts]) *)

Module Errors.

(** The host's [Error]: what a stream hands to its error listeners. *)
Record Error := { Error_message : jsstring }.

(** The named context handed to [formatMessage]; an absent key is
    [undefined]. *)
Record context := {
  ctx_line : option Z;
  ctx_section : option jsstring;
  ctx_pointer : option Z;
  ctx_groupCode : option number;
  ctx_groupValue : option jsstring;
  ctx_code : option number;
  ctx_rawValue : option jsstring;
  ctx_expectedType : option jsstring
}.

Definition part {A} (label : string) (show : A -> jsstring) (x : option A)
  : list jsstring :=
  match x with
  | Some v => [lit label ++ show v]
  | None => []
  end.

Definition formatMessage (message : jsstring) (c : context) : jsstring :=
  let parts :=
    [message]
      ++ part "line: " Z_toString (ctx_line c)
      ++ part "section: " (fun s => s) (ctx_section c)
      ++ part "pointer: " Z_toString (ctx_pointer c)
      ++ part "code: " number_toString (ctx_groupCode c)
      ++ part "value: " JSON_stringify (ctx_groupValue c)
      ++ part "code: " number_toString (ctx_code c)
      ++ part "value: " JSON_stringify (ctx_rawValue c)
      ++ part "expected: " (fun s => s) (ctx_expectedType c) in
  join (lit " | ") parts.

(** Whatever can be thrown while the scanner runs: the three classes of
    [errors.ts] with their readonly fields (the first field is the
    formatted [message]), the host's [TypeError] for a property read on
    [undefined], its [RangeError] for a call with more arguments than it
    takes, and any other host error. *)
Inductive exn :=
| DxfParseError (message : jsstring) (line : option Z)
    (section : option jsstring) (cause : option Error)
| DxfScannerError (message : jsstring) (pointer : Z)
    (groupCode : option number) (groupValue : option jsstring)
    (cause : option Error)
| DxfValueError (message : jsstring) (code : number) (rawValue : jsstring)
    (expectedType : option jsstring)
| TypeError
| RangeError
| HostError (e : Error).

(** The constructors, as [new DxfParseError(...)] and so on run them. *)
Definition new_DxfParseError (message : jsstring) (line : option Z)
    (section : option jsstring) (cause : option Error) : exn :=
  DxfParseError
    (formatMessage message
       {| ctx_line := line; ctx_section := section; ctx_pointer := None;
          ctx_groupCode := None; ctx_groupValue := None; ctx_code := None;
          ctx_rawValue := None; ctx_expectedType := None |})
    line section cause.

Definition new_DxfScannerError (message : jsstring) (pointer : Z)
    (groupCode : option number) (groupValue : option jsstring)
    (cause : option Error) : exn :=
  DxfScannerError
    (formatMessage message
       {| ctx_line := None; ctx_section := None; ctx_pointer := Some pointer;
          ctx_groupCode := groupCode; ctx_groupValue := groupValue;
          ctx_code := None; ctx_rawValue := None; ctx_expectedType := None |})
    pointer groupCode groupValue cause.

Definition new_DxfValueError (message : jsstring) (code : number)
    (rawValue : jsstring) (expectedType : option jsstring) : exn :=
  DxfValueError
    (formatMessage message
       {| ctx_line := None; ctx_section := None; ctx_pointer := None;
          ctx_groupCode := None; ctx_groupValue := None; ctx_code := Some code;
          ctx_rawValue := Some rawValue; ctx_expectedType := expectedType |})
    code rawValue expectedType.

(** The [message] property of a thrown error of this repository. *)
Definition exn_message (e : exn) : option jsstring :=
  match e with
  | DxfParseError m _ _ _ => Some m
  | DxfScannerError m _ _ _ _ => Some m
  | DxfValueError m _ _ _ => Some m
  | TypeError => None
  | RangeError => None
  | HostError e => Some (Error_message e)
  end.

(** The [cause] property. *)
Definition exn_cause (e : exn) : option Error :=
  match e with
  | DxfParseError _ _ _ c => c
  | DxfScannerError _ _ _ _ c => c
  | _ => None
  end.

Definition isDxfParseError (e : exn) : bool :=
  match e with DxfParseError _ _ _ _ => true | _ => false end.
Definition isDxfScannerError (e : exn) : bool :=
  match e with DxfScannerError _ _ _ _ _ => true | _ => false end.
Definition isDxfValueError (e : exn) : bool :=
  match e with DxfValueError _ _ _ _ => true | _ => false end.

End Errors.

Import Errors.

(** ** The scanner ([src/DxfStreamScanner.ts]) *)

(** A group value: [number | string | boolean], the number being the
    result of [parseFloat] or of [parseInt]. *)
Inductive GroupValue :=
| VString (s : jsstring)
| VFloat (d : double)
| VInteger (n : number)
| VBoolean (b : bool).

Record IGroup := { code : number; value : GroupValue }.

Record DxfStreamScanner := {
  buffer : jsstring;
  lines : list jsstring;
  _pointer : Z;
  _eof : bool;
  _lineNumber : Z;
  lastReadGroup : option IGroup
}.

(** [new DxfStreamScanner()]. *)
Definition new_DxfStreamScanner : DxfStreamScanner :=
  {| buffer := []; lines := []; _pointer := 0; _eof := false;
     _lineNumber := 0; lastReadGroup := None |}.

Definition set_buffer (b : jsstring) (s : DxfStreamScanner) :=
  {| buffer := b; lines := lines s; _pointer := _pointer s; _eof := _eof s;
     _lineNumber := _lineNumber s; lastReadGroup := lastReadGroup s |}.
Definition set_lines (l : list jsstring) (s : DxfStreamScanner) :=
  {| buffer := buffer s; lines := l; _pointer := _pointer s; _eof := _eof s;
     _lineNumber := _lineNumber s; lastReadGroup := lastReadGroup s |}.
Definition set_pointer (p : Z) (s : DxfStreamScanner) :=
  {| buffer := buffer s; lines := lines s; _pointer := p; _eof := _eof s;
     _lineNumber := _lineNumber s; lastReadGroup := lastReadGroup s |}.
Definition set_eof (e : bool) (s : DxfStreamScanner) :=
  {| buffer := buffer s; lines := lines s; _pointer := _pointer s; _eof := e;
     _lineNumber := _lineNumber s; lastReadGroup := lastReadGroup s |}.
Definition set_lineNumber (n : Z) (s : DxfStreamScanner) :=
  {| buffer := buffer s; lines := lines s; _pointer := _pointer s;
     _eof := _eof s; _lineNumber := n; lastReadGroup := lastReadGroup s |}.
Definition set_lastReadGroup (g : IGroup) (s : DxfStreamScanner) :=
  {| buffer := buffer s; lines := lines s; _pointer := _pointer s;
     _eof := _eof s; _lineNumber := _lineNumber s; lastReadGroup := Some g |}.

(** *** Methods as computations

    A method call runs on the scanner object, may assign its fields, and
    either returns or throws; a throw keeps the assignments made before
    it. *)

Inductive outcome (A : Type) :=
| Returns (a : A)
| Throws (e : exn).
Arguments Returns {A} a.
Arguments Throws {A} e.

Definition M (A : Type) : Type := DxfStreamScanner -> outcome A * DxfStreamScanner.

Definition ret {A} (a : A) : M A := fun s => (Returns a, s).
Definition throw {A} (e : exn) : M A := fun s => (Throws e, s).
Definition bind {A B} (m : M A) (k : A -> M B) : M B :=
  fun s =>
    match m s with
    | (Returns a, s') => k a s'
    | (Throws e, s') => (Throws e, s')
    end.
Definition this : M DxfStreamScanner := fun s => (Returns s, s).
Definition assign (f : DxfStreamScanner -> DxfStreamScanner) : M unit :=
  fun s => (Returns tt, f s).

Declare Scope method_scope.
Delimit Scope method_scope with method.
Notation "x <- m ;; k" := (bind m (fun x => k))
  (at level 61, m at next level, right associativity) : method_scope.
Notation "m ;; k" := (bind m (fun _ => k))
  (at level 61, right associativity) : method_scope.
Local Open Scope method_scope.

(** [addChunk(chunk)]; [pop() ?? ''] is the last element of the split,
    which is never empty.  The call [this.lines.push(...splitLines)] is
    taken here within the number of arguments the host accepts in one
    call; [addChunk_spread] below has the limit. *)
Definition addChunk (chunk : jsstring) : M Z :=
  s <- this ;;
  assign (set_buffer (buffer s ++ chunk)) ;;
  s <- this ;;
  let splitLines := split (buffer s) in
  assign (set_buffer (last splitLines [])) ;;
  let splitLines := removelast splitLines in
  let startIndex := Z.of_nat (List.length (lines s)) in
  assign (set_lines (lines s ++ splitLines)) ;;
  s <- this ;;
  ret (Z.of_nat (List.length (lines s)) - startIndex).

(** [addChunk(chunk)] on a host that takes at most [maxArguments]
    arguments in one call: [this.lines.push(...splitLines)] passes one
    argument for each completed line and throws a [RangeError] beyond the
    limit, when the buffer has already been replaced by the last fragment
    and no line has been pushed. *)
Definition addChunk_spread (maxArguments : nat) (chunk : jsstring) : M Z :=
  s <- this ;;
  assign (set_buffer (buffer s ++ chunk)) ;;
  s <- this ;;
  let splitLines := split (buffer s) in
  assign (set_buffer (last splitLines [])) ;;
  let splitLines := removelast splitLines in
  let startIndex := Z.of_nat (List.length (lines s)) in
  (if (maxArguments <? List.length splitLines)%nat then throw RangeError
   else assign (set_lines (lines s ++ splitLines))) ;;
  s <- this ;;
  ret (Z.of_nat (List.length (lines s)) - startIndex).

(** [finalize()]. *)
Definition finalize : M unit :=
  s <- this ;;
  if (0 <? Z.of_nat (List.length (buffer s))) then
    assign (set_lines (lines s ++ [buffer s])) ;;
    assign (set_buffer [])
  else ret tt.

Definition getCurrentLineNumber (s : DxfStreamScanner) : Z := _lineNumber s.

(** [hasNext()]. *)
Definition hasNext (s : DxfStreamScanner) : bool :=
  if _eof s then false
  else _pointer s <=? Z.of_nat (List.length (lines s)) - 2.

Definition isEOF (s : DxfStreamScanner) : bool := _eof s.

(** [needsData()]. *)
Definition needsData (s : DxfStreamScanner) : bool :=
  (Z.of_nat (List.length (lines s)) =? 0)
  || (_pointer s >=? Z.of_nat (List.length (lines s)) - 1).

(** [parseBoolean(str)]. *)
Definition parseBoolean (str : jsstring) : M bool :=
  if jsstring_eqb str (lit "0") then ret false
  else if jsstring_eqb str (lit "1") then ret true
  else
    s <- this ;;
    throw (new_DxfParseError
             (lit "Value '" ++ str ++ lit "' cannot be cast to Boolean type")
             (Some (_lineNumber s)) None None).

Definition between (lo : Z) (c : number) (hi : Z) : bool :=
  ge c (Num lo) && le c (Num hi).

(** [parseGroupValue(code, value)]. *)
Definition parseGroupValue (code : number) (value : jsstring) : M GroupValue :=
  if le code (Num 9) then ret (VString value)
  else if between 10 code 59 then ret (VFloat (parseFloat value))
  else if between 60 code 99 then ret (VInteger (parseInt value))
  else if between 100 code 109 then ret (VString value)
  else if between 110 code 149 then ret (VFloat (parseFloat value))
  else if between 160 code 179 then ret (VInteger (parseInt value))
  else if between 210 code 239 then ret (VFloat (parseFloat value))
  else if between 270 code 289 then ret (VInteger (parseInt value))
  else if between 290 code 299 then (b <- parseBoolean value ;; ret (VBoolean b))
  else if between 300 code 369 then ret (VString value)
  else if between 370 code 389 then ret (VInteger (parseInt value))
  else if between 390 code 399 then ret (VString value)
  else if between 400 code 409 then ret (VInteger (parseInt value))
  else if between 410 code 419 then ret (VString value)
  else if between 420 code 429 then ret (VInteger (parseInt value))
  else if between 430 code 439 then ret (VString value)
  else if between 440 code 459 then ret (VInteger (parseInt value))
  else if between 460 code 469 then ret (VFloat (parseFloat value))
  else if between 470 code 481 then ret (VString value)
  else if number_eqb code (Num 999) then ret (VString value)
  else if between 1000 code 1009 then ret (VString value)
  else if between 1010 code 1059 then ret (VFloat (parseFloat value))
  else if between 1060 code 1071 then ret (VInteger (parseInt value))
  else ret (VString value).

(** [x.trim()] on an array element: a [TypeError] when the element is
    [undefined]. *)
Definition trim_of (x : option jsstring) : M jsstring :=
  match x with
  | Some l => ret (trim l)
  | None => throw TypeError
  end.

(** [group.code === 0 && group.value === 'EOF']. *)
Definition isEOFGroup (c : number) (v : GroupValue) : bool :=
  number_eqb c (Num 0) &&
  match v with
  | VString t => jsstring_eqb t (lit "EOF")
  | _ => false
  end.

(** [next()]. *)
Definition next : M IGroup :=
  s <- this ;;
  if negb (hasNext s) then
    if negb (_eof s) then
      throw (new_DxfParseError (lit "Unexpected end of input: need more data")
               (Some (_lineNumber s)) None None)
    else
      throw (new_DxfParseError
               (lit "Cannot call next after EOF group has been read")
               (Some (_lineNumber s)) None None)
  else
    let group_code := parseInt (ToString (index (lines s) (_pointer s))) in
    assign (fun s => set_pointer (_pointer s + 1) s) ;;
    assign (fun s => set_lineNumber (_lineNumber s + 1) s) ;;
    s <- this ;;
    raw <- trim_of (index (lines s) (_pointer s)) ;;
    group_value <- parseGroupValue group_code raw ;;
    assign (fun s => set_pointer (_pointer s + 1) s) ;;
    assign (fun s => set_lineNumber (_lineNumber s + 1) s) ;;
    (if isEOFGroup group_code group_value then assign (set_eof true)
     else ret tt) ;;
    let group := {| code := group_code; value := group_value |} in
    assign (set_lastReadGroup group) ;;
    ret group.

(** [peek()]. *)
Definition peek : M IGroup :=
  s <- this ;;
  if negb (hasNext s) then
    if negb (_eof s) then
      throw (new_DxfParseError (lit "Unexpected end of input: need more data")
               (Some (_lineNumber s)) None None)
    else
      throw (new_DxfParseError
               (lit "Cannot call peek after EOF group has been read")
               (Some (_lineNumber s)) None None)
  else
    let group_code := parseInt (ToString (index (lines s) (_pointer s))) in
    raw <- trim_of (index (lines s) (_pointer s + 1)) ;;
    group_value <- parseGroupValue group_code raw ;;
    ret {| code := group_code; value := group_value |}.

(** [rewind(numberOfGroups = 1)]. *)
Definition rewind (numberOfGroups : Z) : M unit :=
  assign (fun s => set_pointer (_pointer s - numberOfGroups * 2) s) ;;
  assign (fun s => set_lineNumber (_lineNumber s - numberOfGroups * 2) s) ;;
  s <- this ;;
  if _lineNumber s <? 0 then assign (set_lineNumber 0) else ret tt.

(** The scanner with pointer and line counter moved forward by [n]
    lines. *)
Definition advance (n : Z) (s : DxfStreamScanner) : DxfStreamScanner :=
  set_lineNumber (_lineNumber s + n) (set_pointer (_pointer s + n) s).

(** *** Sequences of calls *)

(** The chunks of a stream, fed in order. *)
Fixpoint addChunks (chunks : list jsstring) : M unit :=
  match chunks with
  | [] => ret tt
  | chunk :: more => addChunk chunk ;; addChunks more
  end.

Fixpoint addChunks_spread (maxArguments : nat) (chunks : list jsstring) : M unit :=
  match chunks with
  | [] => ret tt
  | chunk :: more =>
      addChunk_spread maxArguments chunk ;; addChunks_spread maxArguments more
  end.

(** Fed one after the other, no chunk of [chunks] completes more than
    [maxArguments] lines. *)
Fixpoint chunks_within (maxArguments : nat) (s : DxfStreamScanner)
    (chunks : list jsstring) : bool :=
  match chunks with
  | [] => true
  | chunk :: more =>
      (List.length (removelast (split (buffer s ++ chunk))) <=? maxArguments)%nat
      && chunks_within maxArguments (snd (addChunk chunk s)) more
  end.

Definition endsWithCR (s : jsstring) : bool := (last s LF =? CR)%N.

Definition startsWithLF (s : jsstring) : bool :=
  match s with
  | c :: _ => (c =? LF)%N
  | [] => false
  end.

(** No boundary between two consecutive chunks falls between a carriage
    return and the line feed that directly follows it; [before] is the text
    in front of the first chunk. *)
Fixpoint cuts_outside_CRLF (before : jsstring) (chunks : list jsstring) : bool :=
  match chunks with
  | [] => true
  | chunk :: more =>
      negb (endsWithCR before && startsWithLF chunk)
      && cuts_outside_CRLF (before ++ chunk) more
  end.

(** The calls that can assign a field of the scanner; the other methods
    ([hasNext], [isEOF], [needsData], [getCurrentLineNumber]) only read. *)
Inductive call :=
| call_addChunk (chunk : jsstring)
| call_finalize
| call_next
| call_peek
| call_rewind (numberOfGroups : Z).

(** The scanner after a call, whether it returned or threw. *)
Definition after (c : call) (s : DxfStreamScanner) : DxfStreamScanner :=
  match c with
  | call_addChunk chunk => snd (addChunk chunk s)
  | call_finalize => snd (finalize s)
  | call_next => snd (next s)
  | call_peek => snd (peek s)
  | call_rewind n => snd (rewind n s)
  end.

Definition after_all (cs : list call) (s : DxfStreamScanner) : DxfStreamScanner :=
  fold_left (fun s c => after c s) cs s.

(** The states a scanner instance can be in. *)
Inductive reachable : DxfStreamScanner -> Prop :=
| reachable_new : reachable new_DxfStreamScanner
| reachable_call c s : reachable s -> reachable (after c s).

(** *** [parseStreamIncremental] *)

Module Incremental.

(** The promise returned by [parseStreamIncremental]; it resolves with no
    value. *)
Inductive promise :=
| Pending
| Fulfilled
| Rejected (reason : exn).

(** [resolve()] and [reject(reason)] settle a pending promise and do
    nothing to a settled one. *)
Definition resolve (p : promise) : promise :=
  match p with
  | Pending => Fulfilled
  | _ => p
  end.

Definition reject (reason : exn) (p : promise) : promise :=
  match p with
  | Pending => Rejected reason
  | _ => p
  end.

(** What the stream emits; [data] carries [chunk.toString()]. *)
Inductive event :=
| data (chunk : jsstring)
| end_
| error (err : Error).

Record parse := { scanner : DxfStreamScanner; result : promise }.

Definition start : parse :=
  {| scanner := new_DxfStreamScanner; result := Pending |}.

Section Handlers.

(** The caller's parse step; it may assign the scanner and may throw. *)
Variable parseFn : M unit.

(** [while (cond(scanner)) parseFn(scanner)].  The loop need not end;
    [None] is a loop still running when [fuel] iterations are used up. *)
Fixpoint while (cond : DxfStreamScanner -> bool) (fuel : nat)
    (s : DxfStreamScanner) : option (outcome unit * DxfStreamScanner) :=
  if cond s then
    match fuel with
    | O => None
    | S fuel' =>
        match parseFn s with
        | (Returns _, s') => while cond fuel' s'
        | (Throws e, s') => Some (Throws e, s')
        end
    end
  else Some (Returns tt, s).

(** The body of the [try] of each listener. *)
Definition data_body (chunk : jsstring) (fuel : nat) (s : DxfStreamScanner)
  : option (outcome unit * DxfStreamScanner) :=
  match addChunk chunk s with
  | (Returns _, s') =>
      while (fun s => negb (needsData s) && negb (isEOF s)) fuel s'
  | (Throws e, s') => Some (Throws e, s')
  end.

Definition end_body (fuel : nat) (s : DxfStreamScanner)
  : option (outcome unit * DxfStreamScanner) :=
  match finalize s with
  | (Returns _, s') =>
      while (fun s => negb (isEOF s) && hasNext s) fuel s'
  | (Throws e, s') => Some (Throws e, s')
  end.

(** One listener run: the promise is resolved at the end of the [end]
    body, and rejected with whatever a body throws; the [error] listener
    wraps the stream's error. *)
Definition listener (fuel : nat) (ev : event) (p : parse) : option parse :=
  match ev with
  | data chunk =>
      match data_body chunk fuel (scanner p) with
      | Some (Returns _, s') => Some {| scanner := s'; result := result p |}
      | Some (Throws e, s') =>
          Some {| scanner := s'; result := reject e (result p) |}
      | None => None
      end
  | end_ =>
      match end_body fuel (scanner p) with
      | Some (Returns _, s') =>
          Some {| scanner := s'; result := resolve (result p) |}
      | Some (Throws e, s') =>
          Some {| scanner := s'; result := reject e (result p) |}
      | None => None
      end
  | error err =>
      Some {| scanner := scanner p;
              result :=
                reject (new_DxfParseError (lit "Stream error") None None (Some err))
                  (result p) |}
  end.

(** The listeners run one after the other, in the order of the events. *)
Fixpoint emit (fuel : nat) (evs : list event) (p : parse) : option parse :=
  match evs with
  | [] => Some p
  | ev :: more =>
      match listener fuel ev p with
      | Some p' => emit fuel more p'
      | None => None
      end
  end.

(** [parseStreamIncremental(stream, parseFn)] on a stream that emits
    [evs]. *)
Definition parseStreamIncremental (fuel : nat) (evs : list event) : option parse :=
  emit fuel evs start.

End Handlers.

End Incremental.

(** ** The documented coercion table

    The range table as the specification words it (section 4.1), to be
    compared with [parseGroupValue]. *)

Inductive category := TString | TFloat | TInteger | TBoolean.

Definition in_ranges (ranges : list (Z * Z)) (c : Z) : bool :=
  existsb (fun '(lo, hi) => (lo <=? c) && (c <=? hi)) ranges.

Definition documented_category (code : number) : category :=
  match code with
  | NaN => TString
  | Num c =>
      if in_ranges [(0, 9); (100, 109); (300, 369); (390, 399); (410, 419);
                    (430, 439); (470, 481); (999, 999); (1000, 1009)] c
      then TString
      else if in_ranges [(10, 59); (110, 149); (210, 239); (460, 469);
                         (1010, 1059)] c
      then TFloat
      else if in_ranges [(60, 99); (160, 179); (270, 289); (370, 389);
                         (400, 409); (420, 429); (440, 459); (1060, 1071)] c
      then TInteger
      else if in_ranges [(290, 299)] c then TBoolean
      else TString
  end.

(** The value line of the group at the pointer is one that
    [parseGroupValue] turns into a value: it exists, and if the group code
    is in 290-299 it reads "0" or "1" once trimmed. *)
Definition coercible (s : DxfStreamScanner) : bool :=
  let c := parseInt (ToString (index (lines s) (_pointer s))) in
  match index (lines s) (_pointer s + 1) with
  | Some l =>
      negb (between 290 c 299)
      || jsstring_eqb (trim l) (lit "0") || jsstring_eqb (trim l) (lit "1")
  | None => false
  end.

(** ** Sample inputs *)

(** The text of the lines [ls], each ended by a line feed. *)
Definition text (ls : list string) : jsstring :=
  List.concat (map (fun l => lit l ++ [LF]) ls).

(** A scanner that was fed [text ls] in one chunk. *)
Definition scanner_fed (ls : list string) : DxfStreamScanner :=
  snd (addChunk (text ls) new_DxfStreamScanner).

(** ** Texts made of lines *)

Definition isTerminator (c : codeUnit) : bool := ((c =? CR) || (c =? LF))%N.

(** A string with no carriage return and no line feed in it. *)
Definition terminatorFree (s : jsstring) : bool :=
  forallb (fun c => negb (isTerminator c)) s.

(** The three line endings that [addChunk] splits on. *)
Inductive ending := ending_LF | ending_CR | ending_CRLF.

Definition ending_text (e : ending) : jsstring :=
  match e with
  | ending_LF => [LF]
  | ending_CR => [CR]
  | ending_CRLF => [CR; LF]
  end.

(** The text of a sequence of lines, each with its own ending. *)
Fixpoint document (ls : list (jsstring * ending)) : jsstring :=
  match ls with
  | [] => []
  | (l, e) :: more => l ++ ending_text e ++ document more
  end.

(** No line ended by a lone carriage return is directly followed by a line
    feed (that of an empty line ended by one), which would read as one
    ending. *)
Fixpoint endings_unambiguous (ls : list (jsstring * ending)) : bool :=
  match ls with
  | [] => true
  | (_, e) :: more =>
      negb (match e with
            | ending_CR => startsWithLF (document more)
            | _ => false
            end)
      && endings_unambiguous more
  end.

(** * Properties *)

(** ** Host strings *)

Example split_mixed_endings :
  split (lit "0" ++ [LF] ++ lit "SECTION" ++ [CR] ++ lit "2" ++ [CR; LF]
         ++ lit "HEADER" ++ [LF])
  = [lit "0"; lit "SECTION"; lit "2"; lit "HEADER"; []].
Proof. reflexivity. Qed.

Example split_empty : split [] = [[]].
Proof. reflexivity. Qed.

Example split_blank_lines : split [LF; CR; CR; LF] = [[]; []; []; []].
Proof. reflexivity. Qed.

Example parseInt_samples :
  parseInt (lit " 290 ") = Num 290 /\ parseInt (lit "12abc") = Num 12 /\
  parseInt (lit "-0x1F") = Num (-31) /\ parseInt (lit "+7") = Num 7 /\
  parseInt (lit "0x") = NaN /\ parseInt (lit "EOF") = NaN /\
  parseInt [] = NaN /\ parseInt (ToString None) = NaN.
Proof. repeat split; reflexivity. Qed.

Example trim_sample : trim ([9%N] ++ lit " EOF  " ++ [CR]) = lit "EOF".
Proof. reflexivity. Qed.

Example formatMessage_sample :
  exn_message (new_DxfParseError (lit "Malformed") (Some 12) (Some (lit "HEADER")) None)
  = Some (lit "Malformed | line: 12 | section: HEADER") /\
  exn_message (new_DxfScannerError (lit "Unexpected end of input") 0 None None None)
  = Some (lit "Unexpected end of input | pointer: 0") /\
  exn_message (new_DxfValueError (lit "Bad") (Num 290) (lit "no") (Some (lit "boolean")))
  = Some (lit "Bad | code: 290 | value: " ++ [34%N] ++ lit "no" ++ [34%N]
          ++ lit " | expected: boolean").
Proof. repeat split; reflexivity. Qed.

Lemma jsstring_eqb_eq a b : jsstring_eqb a b = true <-> a = b.
Proof.
  unfold jsstring_eqb. destruct (list_eq_dec N.eq_dec a b); split; congruence.
Qed.

Lemma jsstring_eqb_neq a b : jsstring_eqb a b = false <-> a <> b.
Proof.
  unfold jsstring_eqb. destruct (list_eq_dec N.eq_dec a b); split; congruence.
Qed.

Lemma split_not_nil s : split s <> [].
Proof.
  destruct s as [|c rest]; simpl; [discriminate|].
  destruct (c =? CR)%N.
  - destruct rest as [|d rest']; [discriminate|].
    destruct (d =? LF)%N; discriminate.
  - destruct (c =? LF)%N; [discriminate|].
    destruct (split rest); discriminate.
Qed.

Lemma removelast_cons {A} (x : A) l : l <> [] -> removelast (x :: l) = x :: removelast l.
Proof. destruct l; [congruence | reflexivity]. Qed.

Lemma last_cons {A} (x d : A) l : l <> [] -> last (x :: l) d = last l d.
Proof. destruct l; [congruence | reflexivity]. Qed.

Lemma endsWithCR_cons c x : x <> [] -> endsWithCR (c :: x) = endsWithCR x.
Proof. intros H. unfold endsWithCR. now rewrite last_cons. Qed.

(** A separator found in [x] is found again in [x ++ y], unless [x] ends
    in a carriage return that a line feed at the head of [y] completes. *)
Lemma split_app_bounded n : forall x y,
  (List.length x <= n)%nat ->
  endsWithCR x && startsWithLF y = false ->
  split (x ++ y) = removelast (split x) ++ split (last (split x) [] ++ y).
Proof.
  induction n as [|n IH]; intros x y Hlen Hcut.
  - destruct x; [reflexivity | simpl in Hlen; lia].
  - destruct x as [|c x']; [reflexivity|].
    simpl in Hlen.
    assert (Htail : x' <> [] -> endsWithCR x' && startsWithLF y = false).
    { intros Hne. now rewrite <- (endsWithCR_cons c). }
    cbn [app split].
    destruct (c =? CR)%N eqn:Hc.
    + destruct x' as [|d x''].
      * (* x = "\r": y does not start with a line feed *)
        apply N.eqb_eq in Hc. subst c.
        cbn [app]. destruct y as [|e y']; [reflexivity|].
        cbn in Hcut. rewrite Hcut. reflexivity.
      * cbn [app]. destruct (d =? LF)%N eqn:Hd.
        -- rewrite removelast_cons, last_cons by apply split_not_nil.
           cbn [app]. f_equal. apply IH; [simpl in Hlen; lia|].
           destruct x'' as [|e x3]; [reflexivity|].
           rewrite <- (endsWithCR_cons d), <- (endsWithCR_cons c);
             [assumption | discriminate | discriminate].
        -- rewrite removelast_cons, last_cons by apply split_not_nil.
           cbn [app]. f_equal.
           change (d :: x'' ++ y) with ((d :: x'') ++ y).
           apply IH; [lia | apply Htail; discriminate].
    + destruct (c =? LF)%N eqn:Hl.
      * destruct x' as [|d x''].
        -- reflexivity.
        -- rewrite removelast_cons, last_cons by apply split_not_nil.
           cbn [app]. f_equal.
           change (d :: x'' ++ y) with ((d :: x'') ++ y).
           apply IH; [lia | apply Htail; discriminate].
      * assert (IHx : split (x' ++ y)
                      = removelast (split x') ++ split (last (split x') [] ++ y)).
        { destruct x' as [|d x'']; [reflexivity|].
          apply IH; [lia | apply Htail; discriminate]. }
        rewrite IHx.
        destruct (split x') as [|line more] eqn:Hs; [now apply split_not_nil in Hs|].
        destruct more as [|line' more'].
        -- cbn [removelast last app split]. rewrite Hc, Hl. reflexivity.
        -- rewrite (removelast_cons line) by discriminate.
           rewrite (removelast_cons (c :: line)) by discriminate.
           rewrite !last_cons by discriminate. reflexivity.
Qed.

Lemma split_app x y :
  endsWithCR x && startsWithLF y = false ->
  split (x ++ y) = removelast (split x) ++ split (last (split x) [] ++ y).
Proof. apply (split_app_bounded (List.length x)). lia. Qed.

Lemma last_app_not_nil {A} (l1 l2 : list A) d : l2 <> [] -> last (l1 ++ l2) d = last l2 d.
Proof.
  intros H. induction l1 as [|a l1 IH]; [reflexivity|].
  change ((a :: l1) ++ l2) with (a :: (l1 ++ l2)).
  rewrite last_cons; [exact IH|].
  destruct l1; [exact H | discriminate].
Qed.

(** ** addChunk and finalize *)

Lemma addChunk_state chunk s :
  snd (addChunk chunk s)
  = set_lines (lines s ++ removelast (split (buffer s ++ chunk)))
      (set_buffer (last (split (buffer s ++ chunk)) []) s).
Proof. reflexivity. Qed.

(** [addChunk] always returns, with the number of lines it completed. *)
Lemma addChunk_returns chunk s :
  fst (addChunk chunk s)
  = Returns (Z.of_nat (List.length (removelast (split (buffer s ++ chunk))))).
Proof.
  unfold addChunk, bind, this, assign, ret; simpl.
  rewrite length_app. f_equal. lia.
Qed.

(** Two chunks in a row leave the scanner as their concatenation does,
    when the cut is not between a carriage return and its line feed. *)
Lemma addChunk_merge c1 c2 s :
  endsWithCR (buffer s ++ c1) && startsWithLF c2 = false ->
  snd (addChunk c2 (snd (addChunk c1 s))) = snd (addChunk (c1 ++ c2) s).
Proof.
  intros Hcut. rewrite !addChunk_state.
  unfold set_lines, set_buffer; cbn [buffer lines _pointer _eof _lineNumber lastReadGroup].
  rewrite (app_assoc (buffer s) c1 c2), (split_app _ _ Hcut).
  rewrite last_app_not_nil by apply split_not_nil.
  rewrite removelast_app by apply split_not_nil.
  rewrite <- app_assoc. reflexivity.
Qed.

Lemma addChunks_cons chunk more s :
  snd (addChunks (chunk :: more) s) = snd (addChunks more (snd (addChunk chunk s))).
Proof.
  cbn [addChunks]. unfold bind at 1.
  destruct (addChunk chunk s) as [[n|e] s'] eqn:H.
  - reflexivity.
  - pose proof (addChunk_returns chunk s) as R. rewrite H in R. discriminate R.
Qed.

(** Feeding chunks one at a time leaves the scanner as feeding their
    concatenation at once does, provided no chunk boundary separates a
    carriage return from the line feed that follows it. *)
Theorem addChunks_as_one_chunk more : forall chunk s,
  cuts_outside_CRLF (buffer s ++ chunk) more = true ->
  snd (addChunks (chunk :: more) s) = snd (addChunk (chunk ++ List.concat more) s).
Proof.
  induction more as [|c2 more IH]; intros c1 s Hcuts.
  - rewrite addChunks_cons. cbn [addChunks List.concat]. now rewrite app_nil_r.
  - cbn [cuts_outside_CRLF] in Hcuts. apply andb_true_iff in Hcuts as [Hcut Hmore].
    apply negb_true_iff in Hcut.
    rewrite addChunks_cons, addChunks_cons, (addChunk_merge _ _ _ Hcut).
    rewrite <- addChunks_cons.
    cbn [List.concat]. rewrite app_assoc. apply IH. now rewrite app_assoc.
Qed.

Lemma run_then_finalize {A} (m : M A) s :
  (exists a, fst (m s) = Returns a) ->
  snd ((m ;; finalize) s) = snd (finalize (snd (m s))).
Proof.
  intros [a Ha]. unfold bind at 1. destruct (m s) as [[a'|e] s']; [reflexivity|].
  discriminate Ha.
Qed.

Lemma addChunks_returns chunks : forall s, exists u, fst (addChunks chunks s) = Returns u.
Proof.
  induction chunks as [|c more IH]; intros s.
  - now exists tt.
  - cbn [addChunks]. unfold bind at 1.
    destruct (addChunk c s) as [[n|e] s'] eqn:H.
    + apply IH.
    + pose proof (addChunk_returns c s) as R. rewrite H in R. discriminate R.
Qed.

(** The same through [finalize]: the completed lines and the (emptied)
    trailing buffer do not depend on where the text was cut, as long as no
    cut separates a carriage return from its line feed (and every call
    stays within the host's argument limit). *)
Theorem chunking_outside_CRLF_is_invisible chunk more s :
  cuts_outside_CRLF (buffer s ++ chunk) more = true ->
  snd ((addChunks (chunk :: more) ;; finalize) s)
  = snd ((addChunk (chunk ++ List.concat more) ;; finalize) s).
Proof.
  intros Hcuts.
  rewrite !run_then_finalize.
  - now rewrite addChunks_as_one_chunk.
  - eexists. apply addChunk_returns.
  - apply addChunks_returns.
Qed.

Lemma chunking_outside_CRLF_is_invisible_witness :
  let chunks := [lit "0" ++ [LF] ++ lit "SEC"; lit "TION" ++ [CR; LF]; lit "2" ++ [CR]] in
  snd ((addChunks chunks ;; finalize) new_DxfStreamScanner)
  = snd ((addChunk (List.concat chunks) ;; finalize) new_DxfStreamScanner).
Proof.
  cbv zeta. apply (chunking_outside_CRLF_is_invisible _ _ new_DxfStreamScanner).
  reflexivity.
Defined.

(** C1 (a defect of the code): a chunk boundary between the carriage
    return and the line feed of one line ending is visible.  The text
    "a\r\nb" fed whole completes the lines "a" and "b"; fed as "a\r" then
    "\nb" it completes "a", an empty line, and "b". *)
Theorem addChunk_cut_inside_CRLF :
  let whole := lit "a" ++ [CR; LF] ++ lit "b" in
  let chunks := [lit "a" ++ [CR]; [LF] ++ lit "b"] in
  List.concat chunks = whole /\
  lines (snd ((addChunk whole ;; finalize) new_DxfStreamScanner))
    = [lit "a"; lit "b"] /\
  lines (snd ((addChunks chunks ;; finalize) new_DxfStreamScanner))
    = [lit "a"; []; lit "b"] /\
  buffer (snd (addChunk whole new_DxfStreamScanner)) = lit "b" /\
  buffer (snd (addChunks chunks new_DxfStreamScanner)) = lit "b" /\
  lines (snd (addChunk whole new_DxfStreamScanner)) = [lit "a"] /\
  lines (snd (addChunks chunks new_DxfStreamScanner)) = [lit "a"; []].
Proof. cbv zeta. repeat split; reflexivity. Qed.

(** ** Value coercion *)

Lemma formatMessage_line message l :
  formatMessage message
    {| ctx_line := Some l; ctx_section := None; ctx_pointer := None;
       ctx_groupCode := None; ctx_groupValue := None; ctx_code := None;
       ctx_rawValue := None; ctx_expectedType := None |}
  = message ++ lit " | line: " ++ Z_toString l.
Proof. reflexivity. Qed.

Lemma parseBoolean_0 s : parseBoolean (lit "0") s = (Returns false, s).
Proof. reflexivity. Qed.

Lemma parseBoolean_1 s : parseBoolean (lit "1") s = (Returns true, s).
Proof. reflexivity. Qed.

Lemma parseBoolean_other str s :
  str <> lit "0" -> str <> lit "1" ->
  parseBoolean str s
  = (Throws (new_DxfParseError
               (lit "Value '" ++ str ++ lit "' cannot be cast to Boolean type")
               (Some (_lineNumber s)) None None), s).
Proof.
  intros H0 H1. unfold parseBoolean.
  apply jsstring_eqb_neq in H0, H1. now rewrite H0, H1.
Qed.

(** Coercion assigns no field of the scanner. *)
Lemma parseBoolean_frame str s : snd (parseBoolean str s) = s.
Proof.
  unfold parseBoolean.
  destruct (jsstring_eqb str (lit "0")); [reflexivity|].
  destruct (jsstring_eqb str (lit "1")); reflexivity.
Qed.

Lemma parseGroupValue_frame c v s : snd (parseGroupValue c v s) = s.
Proof.
  unfold parseGroupValue.
  repeat match goal with
    | |- context [if between ?a ?b ?c then _ else _] =>
        destruct (between a b c); try reflexivity
    | |- context [if le ?a ?b then _ else _] =>
        destruct (le a b); try reflexivity
    | |- context [if number_eqb ?a ?b then _ else _] =>
        destruct (number_eqb a b); try reflexivity
    end;
  unfold bind; pose proof (parseBoolean_frame v s) as F;
  destruct (parseBoolean v s) as [[b|e] s']; simpl in *; now subst.
Qed.

Ltac by_range :=
  repeat match goal with
    | |- context [Z.leb ?a ?b] => destruct (Z.leb_spec a b); try lia
    | |- context [Z.eqb ?a ?b] => destruct (Z.eqb_spec a b); try lia
    end;
  cbn [andb orb negb]; try reflexivity.

(** [parseGroupValue] against the documented table, range by range. *)
Lemma parseGroupValue_table code raw s :
  parseGroupValue code raw s
  = match documented_category code with
    | TString => (Returns (VString raw), s)
    | TFloat => (Returns (VFloat (parseFloat raw)), s)
    | TInteger => (Returns (VInteger (parseInt raw)), s)
    | TBoolean =>
        if jsstring_eqb raw (lit "0") then (Returns (VBoolean false), s)
        else if jsstring_eqb raw (lit "1") then (Returns (VBoolean true), s)
        else (Throws (new_DxfParseError
                        (lit "Value '" ++ raw ++ lit "' cannot be cast to Boolean type")
                        (Some (_lineNumber s)) None None), s)
    end.
Proof.
  destruct code as [|c]; [reflexivity|].
  unfold parseGroupValue, documented_category, in_ranges, between, ge, le,
    number_eqb, existsb.
  by_range.
  unfold bind, parseBoolean.
  destruct (jsstring_eqb raw (lit "0")); [reflexivity|].
  destruct (jsstring_eqb raw (lit "1")); reflexivity.
Qed.

(** C2 (amended): the result of [parseGroupValue] is decided by the
    documented range table: the raw string itself in the string ranges and
    for every unmatched code, [parseFloat] of it in the float ranges,
    [parseInt] of it in the integer ranges; in 290-299 the boolean of the
    literals "0" and "1", and for any other raw string a thrown error
    instead of a value.  It assigns no field of the scanner. *)
Theorem parseGroupValue_by_table code raw s :
  parseGroupValue code raw s
  = match documented_category code with
    | TString => (Returns (VString raw), s)
    | TFloat => (Returns (VFloat (parseFloat raw)), s)
    | TInteger => (Returns (VInteger (parseInt raw)), s)
    | TBoolean =>
        if jsstring_eqb raw (lit "0") then (Returns (VBoolean false), s)
        else if jsstring_eqb raw (lit "1") then (Returns (VBoolean true), s)
        else (Throws (new_DxfParseError
                        (lit "Value '" ++ raw ++ lit "' cannot be cast to Boolean type")
                        (Some (_lineNumber s)) None None), s)
    end.
Proof. apply parseGroupValue_table. Qed.

(** C2 as stated fails: in the boolean range there are raw strings for
    which no value is returned. *)
Lemma parseGroupValue_not_total :
  documented_category (Num 290) = TBoolean /\
  forall s v, fst (parseGroupValue (Num 290) (lit "invalid") s) <> Returns v.
Proof. split; [reflexivity | intros s v; discriminate]. Qed.

(** C3 (a defect of the code): the scanner's boolean coercion maps "0" to
    false and "1" to true, but for another literal it throws a
    [DxfParseError] that carries a line number, not a [DxfValueError]
    carrying the group code and the raw literal.  Here: group code 290
    with the value line "invalid". *)
Theorem parseBoolean_invalid_throws_parse_error :
  let s := set_lines [lit "290"; lit "invalid"] new_DxfStreamScanner in
  let e := DxfParseError
             (lit "Value 'invalid' cannot be cast to Boolean type | line: 1")
             (Some 1) None None in
  parseGroupValue (Num 290) (lit "0") s = (Returns (VBoolean false), s) /\
  parseGroupValue (Num 290) (lit "1") s = (Returns (VBoolean true), s) /\
  fst (next s) = Throws e /\
  isDxfValueError e = false /\
  (forall m t, e <> DxfValueError m (Num 290) (lit "invalid") t).
Proof. cbv zeta. repeat split; try reflexivity. intros m t; discriminate. Qed.

(** ** The cursor *)

Example next_sample :
  let s := scanner_fed ["  0"; " SECTION "; "70"; "12"; "40"]%string in
  fst (next s) = Returns {| code := Num 0; value := VString (lit "SECTION") |} /\
  fst (next (snd (next s))) = Returns {| code := Num 70; value := VInteger (Num 12) |} /\
  hasNext (snd (next (snd (next s)))) = false /\
  needsData (snd (next s)) = false /\
  needsData (snd (next (snd (next s)))) = true /\
  getCurrentLineNumber (snd (next (snd (next s)))) = 4.
Proof. cbv zeta. repeat split; reflexivity. Qed.

Example next_float_sample :
  fst (next (scanner_fed ["10"; " 1.0e10"]%string))
  = Returns {| code := Num 10; value := VFloat (parseFloat (lit "1.0e10")) |}.
Proof. reflexivity. Qed.

(** What [next] does once a group is available. *)
Lemma next_available s :
  hasNext s = true ->
  next s
  = let c := parseInt (ToString (index (lines s) (_pointer s))) in
    match index (lines s) (_pointer s + 1) with
    | None => (Throws TypeError, advance 1 s)
    | Some l =>
        match fst (parseGroupValue c (trim l) (advance 1 s)) with
        | Returns v =>
            let g := {| code := c; value := v |} in
            (Returns g,
             {| buffer := buffer s; lines := lines s;
                _pointer := _pointer s + 1 + 1;
                _eof := if isEOFGroup c v then true else _eof s;
                _lineNumber := _lineNumber s + 1 + 1;
                lastReadGroup := Some g |})
        | Throws e => (Throws e, advance 1 s)
        end
    end.
Proof.
  intros H. unfold next, bind at 1, this at 1. rewrite H. cbn [negb].
  unfold bind at 1, assign at 1. unfold bind at 1, assign at 1.
  unfold bind at 1, this at 1. unfold advance.
  cbn [set_pointer set_lineNumber lines _pointer _lineNumber buffer _eof lastReadGroup].
  cbv zeta.
  destruct (index (lines s) (_pointer s + 1)) as [l|]; [|reflexivity].
  unfold bind at 1, trim_of, ret at 1. unfold bind at 1.
  match goal with |- context [parseGroupValue ?c ?r ?st] =>
    pose proof (parseGroupValue_frame c r st) as F;
    destruct (parseGroupValue c r st) as [[v|e] s'] end;
  cbn [fst snd] in *; subst s'; [|reflexivity].
  unfold bind, assign, ret.
  destruct (isEOFGroup _ v); reflexivity.
Qed.

(** What [peek] does once a group is available. *)
Lemma peek_available s :
  hasNext s = true ->
  peek s
  = let c := parseInt (ToString (index (lines s) (_pointer s))) in
    match index (lines s) (_pointer s + 1) with
    | None => (Throws TypeError, s)
    | Some l =>
        match fst (parseGroupValue c (trim l) s) with
        | Returns v => (Returns {| code := c; value := v |}, s)
        | Throws e => (Throws e, s)
        end
    end.
Proof.
  intros H. unfold peek, bind at 1, this at 1. rewrite H. cbn [negb]. cbv zeta.
  destruct (index (lines s) (_pointer s + 1)) as [l|]; [|reflexivity].
  unfold bind at 1, trim_of, ret at 1. unfold bind at 1.
  match goal with |- context [parseGroupValue ?c ?r ?st] =>
    pose proof (parseGroupValue_frame c r st) as F;
    destruct (parseGroupValue c r st) as [[v|e] s'] end;
  cbn [fst snd] in *; subst s'; reflexivity.
Qed.

(** What [next] and [peek] do when no group is available. *)
Lemma next_unavailable s :
  hasNext s = false ->
  next s
  = (Throws (new_DxfParseError
               (if _eof s then lit "Cannot call next after EOF group has been read"
                else lit "Unexpected end of input: need more data")
               (Some (_lineNumber s)) None None), s).
Proof.
  intros H. unfold next, bind, this. rewrite H. cbn [negb].
  destruct (_eof s); reflexivity.
Qed.

Lemma peek_unavailable s :
  hasNext s = false ->
  peek s
  = (Throws (new_DxfParseError
               (if _eof s then lit "Cannot call peek after EOF group has been read"
                else lit "Unexpected end of input: need more data")
               (Some (_lineNumber s)) None None), s).
Proof.
  intros H. unfold peek, bind, this. rewrite H. cbn [negb].
  destruct (_eof s); reflexivity.
Qed.

Lemma hasNext_false_iff s :
  hasNext s = false
  <-> _eof s = true \/ Z.of_nat (List.length (lines s)) - 2 < _pointer s.
Proof.
  unfold hasNext. destruct (_eof s).
  - split; [now left | reflexivity].
  - rewrite Z.leb_gt. split; [now right | intros [H|H]; [discriminate | exact H]].
Qed.

(** C4 (a defect of the code): when no group is available the scanner
    throws a [DxfParseError] carrying a line number, not a
    [DxfScannerError] carrying the pointer.  On a new scanner [next] and
    [peek] throw it with the text "Unexpected end of input: need more
    data"; after the EOF group has been read they throw it with the texts
    "Cannot call next after EOF group has been read" and "Cannot call peek
    after EOF group has been read".  The scanner is left as it was. *)
Theorem next_peek_unavailable_throw_parse_error :
  let s := new_DxfStreamScanner in
  let t := snd (next (scanner_fed ["0"; "EOF"]%string)) in
  let transient :=
    DxfParseError (lit "Unexpected end of input: need more data | line: 0")
      (Some 0) None None in
  let next_after_EOF :=
    DxfParseError (lit "Cannot call next after EOF group has been read | line: 2")
      (Some 2) None None in
  let peek_after_EOF :=
    DxfParseError (lit "Cannot call peek after EOF group has been read | line: 2")
      (Some 2) None None in
  next s = (Throws transient, s) /\ peek s = (Throws transient, s) /\
  isEOF t = true /\
  next t = (Throws next_after_EOF, t) /\ peek t = (Throws peek_after_EOF, t) /\
  isDxfScannerError transient = false /\
  isDxfScannerError next_after_EOF = false /\
  isDxfScannerError peek_after_EOF = false /\
  (forall m p c v k, transient <> DxfScannerError m p c v k).
Proof. cbv zeta. repeat split; try reflexivity. intros; discriminate. Qed.

(** The texts thrown when no group is available: [next] and [peek] throw
    and leave the scanner as it was.  Before the EOF group has been read
    both throw the same error, whose message is "Unexpected end of input:
    need more data" followed by " | line: " and the line counter; once it
    has been read the message is "Cannot call next after EOF group has been
    read" for [next] and "Cannot call peek after EOF group has been read"
    for [peek], followed by the same suffix.  The three texts differ from
    each other. *)
Theorem next_peek_unavailable_messages s :
  hasNext s = false ->
  let suffix := lit " | line: " ++ Z_toString (_lineNumber s) in
  let transient := lit "Unexpected end of input: need more data" ++ suffix in
  let next_after_EOF := lit "Cannot call next after EOF group has been read" ++ suffix in
  let peek_after_EOF := lit "Cannot call peek after EOF group has been read" ++ suffix in
  (exists e_next e_peek,
     next s = (Throws e_next, s) /\ peek s = (Throws e_peek, s) /\
     exn_message e_next = Some (if _eof s then next_after_EOF else transient) /\
     exn_message e_peek = Some (if _eof s then peek_after_EOF else transient)) /\
  transient <> next_after_EOF /\ transient <> peek_after_EOF /\
  next_after_EOF <> peek_after_EOF.
Proof.
  intros H. cbv zeta. split.
  - do 2 eexists.
    split; [apply (next_unavailable _ H)|].
    split; [apply (peek_unavailable _ H)|].
    unfold new_DxfParseError, exn_message. rewrite !formatMessage_line.
    destruct (_eof s); split; reflexivity.
  - repeat split; intros E; cbn in E; discriminate E.
Qed.

Lemma next_peek_unavailable_messages_witness :
  hasNext new_DxfStreamScanner = false /\
  exists e_next e_peek,
    next new_DxfStreamScanner = (Throws e_next, new_DxfStreamScanner) /\
    peek new_DxfStreamScanner = (Throws e_peek, new_DxfStreamScanner) /\
    exn_message e_next
    = Some (lit "Unexpected end of input: need more data | line: 0") /\
    exn_message e_peek
    = Some (lit "Unexpected end of input: need more data | line: 0").
Proof.
  split; [reflexivity|].
  exact (proj1 (next_peek_unavailable_messages new_DxfStreamScanner eq_refl)).
Defined.

(** *** rewind *)

Lemma rewind_state n s :
  rewind n s
  = (Returns tt,
     set_lineNumber (Z.max 0 (_lineNumber s - n * 2))
       (set_pointer (_pointer s - n * 2) s)).
Proof.
  unfold rewind, bind, assign, this, ret.
  cbn [set_pointer set_lineNumber _lineNumber _pointer buffer lines _eof lastReadGroup].
  destruct (Z.ltb_spec (_lineNumber s - n * 2) 0) as [H|H]; unfold set_lineNumber; cbn.
  - now rewrite Z.max_l by lia.
  - now rewrite Z.max_r by lia.
Qed.

(** The pointer moves back by [2n], whatever its value. *)
Lemma rewind_pointer n s : _pointer (snd (rewind n s)) = _pointer s - 2 * n.
Proof. rewrite rewind_state. cbn [snd set_lineNumber set_pointer _pointer]. lia. Qed.

(** The line counter moves back by [2n], and stops at zero. *)
Lemma rewind_lineNumber n s :
  _lineNumber (snd (rewind n s)) = Z.max 0 (_lineNumber s - 2 * n).
Proof.
  rewrite rewind_state. cbn [snd set_lineNumber set_pointer _lineNumber].
  f_equal. lia.
Qed.

Lemma rewind_exact n s :
  1 <= n -> 2 * n <= _lineNumber s ->
  _pointer (snd (rewind n s)) = _pointer s - 2 * n /\
  _lineNumber (snd (rewind n s)) = _lineNumber s - 2 * n.
Proof. intros Hn Hl. rewrite rewind_pointer, rewind_lineNumber. lia. Qed.

Lemma rewind_exact_witness :
  let s := advance 4 new_DxfStreamScanner in
  _pointer (snd (rewind 1 s)) = 2 /\ _lineNumber (snd (rewind 1 s)) = 2.
Proof. cbv zeta. apply (rewind_exact 1 (advance 4 new_DxfStreamScanner)); cbn; lia. Defined.

(** C5 (a defect of the code): [rewind] clamps the line counter at zero
    but not the pointer.  On a new scanner [rewind(1)] leaves the line
    counter at 0 and the pointer at -2; [hasNext] then answers true on the
    empty buffer and [next] fails with a [TypeError]. *)
Theorem rewind_pointer_not_clamped :
  let s := snd (rewind 1 new_DxfStreamScanner) in
  _lineNumber s = 0 /\ _pointer s = -2 /\
  hasNext s = true /\ fst (next s) = Throws TypeError.
Proof. cbv zeta. repeat split; reflexivity. Qed.

(** *** What a call can change *)

Lemma peek_frame s : snd (peek s) = s.
Proof.
  destruct (hasNext s) eqn:H.
  - rewrite (peek_available _ H). cbv zeta.
    destruct (index (lines s) (_pointer s + 1)); [|reflexivity].
    destruct (fst (parseGroupValue _ _ s)); reflexivity.
  - now rewrite (peek_unavailable _ H).
Qed.

(** [next] leaves the scanner as it was, or one line further (a throw
    between the two lines of a group), or two lines further. *)
Lemma next_effect s :
  let s' := snd (next s) in
  buffer s' = buffer s /\ lines s' = lines s /\
  (_eof s = true -> s' = s) /\
  (_eof s' = false -> _eof s = false) /\
  (exists k, 0 <= k <= 2 /\ _pointer s' = _pointer s + k
             /\ _lineNumber s' = _lineNumber s + k).
Proof.
  cbv zeta. destruct (hasNext s) eqn:H.
  - assert (E : _eof s = false).
    { unfold hasNext in H. destruct (_eof s); [discriminate | reflexivity]. }
    rewrite (next_available _ H). cbv zeta.
    destruct (index (lines s) (_pointer s + 1)) as [l|].
    + destruct (fst (parseGroupValue _ (trim l) (advance 1 s))) as [v|e]; cbn.
      * repeat split; try congruence. exists 2. lia.
      * repeat split; try congruence. exists 1. lia.
    + cbn. repeat split; try congruence. exists 1. lia.
  - rewrite (next_unavailable _ H). cbn.
    repeat split; try congruence. exists 0. lia.
Qed.

(** Only [rewind] moves the position back. *)
Lemma position_monotone c s :
  (forall n, c <> call_rewind n) ->
  _pointer s <= _pointer (after c s) /\ _lineNumber s <= _lineNumber (after c s).
Proof.
  intros Hc. destruct c as [chunk| | | |n]; cbn [after].
  - rewrite addChunk_state. cbn. lia.
  - unfold finalize, bind, this, assign, ret.
    destruct (0 <? Z.of_nat (List.length (buffer s))); cbn; lia.
  - destruct (next_effect s) as (_ & _ & _ & _ & k & Hk & -> & ->). lia.
  - rewrite peek_frame. lia.
  - now destruct (Hc n).
Qed.

Lemma lineNumber_kept_non_negative c s :
  0 <= _lineNumber s -> 0 <= _lineNumber (after c s).
Proof.
  intros H. destruct c as [chunk| | | |n].
  - destruct (position_monotone (call_addChunk chunk) s); [discriminate | lia].
  - destruct (position_monotone call_finalize s); [discriminate | lia].
  - destruct (position_monotone call_next s); [discriminate | lia].
  - destruct (position_monotone call_peek s); [discriminate | lia].
  - cbn [after]. rewrite rewind_lineNumber. lia.
Qed.

Lemma reachable_lineNumber s : reachable s -> 0 <= _lineNumber s.
Proof.
  induction 1 as [|c s _ IH]; [cbn; lia | now apply lineNumber_kept_non_negative].
Qed.

(** *** End of file *)

Lemma eof_kept c s : _eof s = true -> _eof (after c s) = true.
Proof.
  intros H. destruct c as [chunk| | | |n]; cbn [after].
  - now rewrite addChunk_state.
  - unfold finalize, bind, this, assign, ret.
    destruct (0 <? Z.of_nat (List.length (buffer s))); exact H.
  - destruct (next_effect s) as (_ & _ & Hs & _). now rewrite (Hs H).
  - now rewrite peek_frame.
  - now rewrite rewind_state.
Qed.

Lemma eof_kept_all calls : forall s, _eof s = true -> _eof (after_all calls s) = true.
Proof.
  induction calls as [|c calls IH]; intros s H; [exact H|].
  cbn [after_all fold_left]. apply IH. now apply eof_kept.
Qed.

Lemma next_returns_inv s g s1 :
  next s = (Returns g, s1) ->
  hasNext s = true /\
  _eof s1 = isEOFGroup (code g) (value g) /\
  _pointer s1 = _pointer s + 2 /\ _lineNumber s1 = _lineNumber s + 2 /\
  lines s1 = lines s /\ buffer s1 = buffer s /\ lastReadGroup s1 = Some g.
Proof.
  intros H. destruct (hasNext s) eqn:Hn.
  - assert (E : _eof s = false).
    { unfold hasNext in Hn. destruct (_eof s); [discriminate | reflexivity]. }
    rewrite (next_available _ Hn) in H. cbv zeta in H.
    destruct (index (lines s) (_pointer s + 1)) as [l|]; [|discriminate H].
    destruct (fst (parseGroupValue _ (trim l) (advance 1 s))) as [v|e];
      [|discriminate H].
    injection H as <- <-. cbn.
    repeat split; try lia. now destruct (isEOFGroup _ v).
  - rewrite (next_unavailable _ Hn) in H. discriminate H.
Qed.

(** C6: once [next] has returned the group with code 0 and value "EOF",
    then after any further calls (more chunks, [finalize], [rewind],
    [next], [peek]) [isEOF] answers true, [hasNext] answers false, and
    [next] and [peek] throw, leaving the scanner as it is: no group is
    returned any more. *)
Theorem EOF_is_permanent s g s1 calls :
  next s = (Returns g, s1) ->
  code g = Num 0 -> value g = VString (lit "EOF") ->
  let s' := after_all calls s1 in
  isEOF s' = true /\ hasNext s' = false /\
  (exists e, next s' = (Throws e, s')) /\
  (exists e, peek s' = (Throws e, s')).
Proof.
  intros Hnext Hc Hv s'.
  assert (E : _eof s' = true).
  { apply eof_kept_all. destruct (next_returns_inv _ _ _ Hnext) as (_ & -> & _).
    now rewrite Hc, Hv. }
  assert (N : hasNext s' = false) by (unfold hasNext; now rewrite E).
  repeat split; try assumption.
  - eexists. apply (next_unavailable _ N).
  - eexists. apply (peek_unavailable _ N).
Qed.

Lemma EOF_is_permanent_witness :
  let s := scanner_fed ["0"; "EOF"]%string in
  let g := {| code := Num 0; value := VString (lit "EOF") |} in
  let calls := [call_addChunk (text ["0"; "LINE"]%string);
                call_rewind 1; call_next; call_peek] in
  next s = (Returns g, snd (next s)) /\
  isEOF (after_all calls (snd (next s))) = true /\
  hasNext (after_all calls (snd (next s))) = false /\
  (exists e, next (after_all calls (snd (next s)))
             = (Throws e, after_all calls (snd (next s)))) /\
  (exists e, peek (after_all calls (snd (next s)))
             = (Throws e, after_all calls (snd (next s)))).
Proof.
  cbv zeta. split; [reflexivity|].
  apply (EOF_is_permanent (scanner_fed ["0"; "EOF"]%string)
           {| code := Num 0; value := VString (lit "EOF") |}
           (snd (next (scanner_fed ["0"; "EOF"]%string))));
    reflexivity.
Defined.

(** *** peek, next and rewind together *)

Lemma documented_boolean code :
  documented_category code = TBoolean <-> between 290 code 299 = true.
Proof.
  destruct code as [|c]; [split; discriminate|].
  unfold documented_category, in_ranges, between, ge, le, existsb.
  repeat match goal with
    | |- context [Z.leb ?a ?b] => destruct (Z.leb_spec a b); try lia
    end;
  cbn [andb orb]; split; congruence.
Qed.

(** A value that is returned does not depend on the scanner. *)
Lemma parseGroupValue_returns_anywhere c raw s v :
  fst (parseGroupValue c raw s) = Returns v ->
  forall s', parseGroupValue c raw s' = (Returns v, s').
Proof.
  intros H s'. rewrite parseGroupValue_table in *.
  destruct (documented_category c); cbn [fst] in H; try now injection H as <-.
  destruct (jsstring_eqb raw (lit "0")); [now injection H as <-|].
  destruct (jsstring_eqb raw (lit "1")); [now injection H as <-|].
  discriminate H.
Qed.

Lemma parseGroupValue_throws_anywhere c raw s e :
  fst (parseGroupValue c raw s) = Throws e ->
  forall s', exists e', parseGroupValue c raw s' = (Throws e', s').
Proof.
  intros H s'. rewrite parseGroupValue_table in *.
  destruct (documented_category c); cbn [fst] in H; try discriminate H.
  destruct (jsstring_eqb raw (lit "0")); [discriminate H|].
  destruct (jsstring_eqb raw (lit "1")); [discriminate H|].
  now eexists.
Qed.

Lemma parseGroupValue_coercible c raw s :
  negb (between 290 c 299)
  || jsstring_eqb raw (lit "0") || jsstring_eqb raw (lit "1") = true ->
  exists v, fst (parseGroupValue c raw s) = Returns v.
Proof.
  intros H. rewrite parseGroupValue_table.
  destruct (documented_category c) eqn:D; try (eexists; reflexivity).
  apply documented_boolean in D. rewrite D in H. cbn [negb orb] in H.
  destruct (jsstring_eqb raw (lit "0")); [eexists; reflexivity|].
  destruct (jsstring_eqb raw (lit "1")); [eexists; reflexivity|].
  discriminate H.
Qed.

Lemma parseGroupValue_not_coercible c raw s :
  negb (between 290 c 299)
  || jsstring_eqb raw (lit "0") || jsstring_eqb raw (lit "1") = false ->
  parseGroupValue c raw s
  = (Throws (new_DxfParseError
               (lit "Value '" ++ raw ++ lit "' cannot be cast to Boolean type")
               (Some (_lineNumber s)) None None), s).
Proof.
  intros H. apply orb_false_iff in H as [H H1]. apply orb_false_iff in H as [H H0].
  apply negb_false_iff, documented_boolean in H.
  now rewrite parseGroupValue_table, H, H0, H1.
Qed.

(** C7 as stated fails: two unread lines are buffered and EOF has not been
    read, yet [peek] returns no group, because the value line is not a
    boolean literal while the code line asks for one. *)
Lemma peek_invalid_boolean_counterexample :
  let s := scanner_fed ["290"; "invalid"]%string in
  _eof s = false /\
  0 <= _pointer s <= Z.of_nat (List.length (lines s)) - 2 /\
  hasNext s = true /\
  forall g, fst (peek s) <> Returns g.
Proof. cbv zeta. repeat split; try reflexivity; try (cbn; lia). discriminate. Qed.

(** C7 (amended): whenever a complete group is available, [peek] leaves
    the scanner (pointer, line counter, EOF flag, lines) as it was; if the
    value line can be coerced under the group code, [peek] returns a group
    and the [next] call that follows returns the same group; if it cannot,
    both throw. *)
Theorem peek_then_next s :
  hasNext s = true ->
  snd (peek s) = s /\
  if coercible s
  then exists g s', peek s = (Returns g, s) /\ next s = (Returns g, s')
  else exists e e', peek s = (Throws e, s) /\ fst (next s) = Throws e'.
Proof.
  intros H. split; [apply peek_frame|].
  rewrite (peek_available _ H), (next_available _ H). unfold coercible. cbv zeta.
  destruct (index (lines s) (_pointer s + 1)) as [l|].
  - match goal with |- if ?b then _ else _ => destruct b eqn:C end.
    + destruct (parseGroupValue_coercible _ _ s C) as [v Hv].
      rewrite Hv, (parseGroupValue_returns_anywhere _ _ _ _ Hv (advance 1 s)).
      cbn [fst]. now do 2 eexists.
    + rewrite !(parseGroupValue_not_coercible _ _ _ C). cbn [fst]. now do 2 eexists.
  - now do 2 eexists.
Qed.

Lemma peek_then_next_witness :
  let s := scanner_fed ["0"; " SECTION"; "2"; "HEADER"]%string in
  hasNext s = true /\ coercible s = true /\
  snd (peek s) = s /\
  exists g s', peek s = (Returns g, s) /\ next s = (Returns g, s').
Proof.
  cbv zeta. split; [reflexivity|]. split; [reflexivity|].
  exact (peek_then_next (scanner_fed ["0"; " SECTION"; "2"; "HEADER"]%string) eq_refl).
Defined.

Lemma next_ignores_lastReadGroup s g0 :
  next {| buffer := buffer s; lines := lines s; _pointer := _pointer s;
          _eof := _eof s; _lineNumber := _lineNumber s; lastReadGroup := g0 |}
  = match next s with
    | (Returns g, s') => (Returns g, s')
    | (Throws e, s') =>
        (Throws e,
         {| buffer := buffer s'; lines := lines s'; _pointer := _pointer s';
            _eof := _eof s'; _lineNumber := _lineNumber s'; lastReadGroup := g0 |})
    end.
Proof.
  destruct (hasNext s) eqn:H.
  - rewrite (next_available s H), next_available by exact H.
    cbn [buffer lines _pointer _eof _lineNumber lastReadGroup]. cbv zeta.
    destruct (index (lines s) (_pointer s + 1)) as [l|]; [|reflexivity].
    destruct (fst (parseGroupValue _ (trim l) (advance 1 s))) as [v|e] eqn:P.
    + now rewrite (parseGroupValue_returns_anywhere _ _ _ _ P).
    + destruct (parseGroupValue_throws_anywhere _ _ _ _ P
                  (advance 1 {| buffer := buffer s; lines := lines s;
                                _pointer := _pointer s; _eof := _eof s;
                                _lineNumber := _lineNumber s;
                                lastReadGroup := g0 |})) as [e' E].
      rewrite E. cbn [fst].
      rewrite parseGroupValue_table in P, E.
      destruct (documented_category _); try discriminate P.
      destruct (jsstring_eqb _ (lit "0")); [discriminate P|].
      destruct (jsstring_eqb _ (lit "1")); [discriminate P|].
      cbn in P, E. injection P as <-. injection E as <-. reflexivity.
  - rewrite (next_unavailable s H), next_unavailable by exact H. reflexivity.
Qed.

(** C8 as stated fails: when the group that [next] returns is the EOF
    group, [rewind(1)] puts the pointer back but the EOF flag stays, and
    the following [next] throws instead of returning the group again. *)
Lemma rewind_after_EOF_counterexample :
  let s := scanner_fed ["0"; "EOF"]%string in
  reachable s /\
  exists g s1,
    next s = (Returns g, s1) /\
    _pointer (snd (rewind 1 s1)) = _pointer s /\
    forall g', fst (next (snd (rewind 1 s1))) <> Returns g'.
Proof.
  cbv zeta. split.
  - apply (reachable_call (call_addChunk _)), reachable_new.
  - exists {| code := Num 0; value := VString (lit "EOF") |},
      (snd (next (scanner_fed ["0"; "EOF"]%string))).
    split; [reflexivity|]. split; [reflexivity|]. discriminate.
Qed.

(** C8 (amended): in every state of a scanner in which [next] returns a
    group other than the EOF group, [rewind(1)] right after it puts
    pointer and line counter back where they were, and the [next] call
    that follows returns the same group and leaves the same line number
    as the first one did. *)
Theorem rewind_then_next_again s g s1 :
  reachable s ->
  next s = (Returns g, s1) ->
  isEOFGroup (code g) (value g) = false ->
  let s2 := snd (rewind 1 s1) in
  _pointer s2 = _pointer s /\
  getCurrentLineNumber s2 = getCurrentLineNumber s /\
  exists s3,
    next s2 = (Returns g, s3) /\
    getCurrentLineNumber s3 = getCurrentLineNumber s1.
Proof.
  intros R Hnext Hg s2.
  pose proof (reachable_lineNumber _ R) as L.
  destruct (next_returns_inv _ _ _ Hnext) as (Hn & E & P & N & Ls & B & G).
  assert (S2 : s2 = {| buffer := buffer s; lines := lines s; _pointer := _pointer s;
                       _eof := _eof s; _lineNumber := _lineNumber s;
                       lastReadGroup := Some g |}).
  { subst s2. rewrite rewind_state. unfold set_lineNumber, set_pointer.
    cbn [snd buffer lines _pointer _eof _lineNumber lastReadGroup].
    rewrite B, Ls, P, N, E, Hg, G.
    assert (_eof s = false) as ->.
    { unfold hasNext in Hn. destruct (_eof s); [discriminate | reflexivity]. }
    f_equal; lia. }
  rewrite S2. cbn [_pointer _lineNumber getCurrentLineNumber].
  split; [reflexivity|]. split; [reflexivity|].
  exists s1. now rewrite next_ignores_lastReadGroup, Hnext.
Qed.

Lemma rewind_then_next_again_witness :
  let s := scanner_fed ["0"; "SECTION"; "2"; "HEADER"]%string in
  let g := {| code := Num 0; value := VString (lit "SECTION") |} in
  reachable s /\ next s = (Returns g, snd (next s)) /\
  isEOFGroup (code g) (value g) = false /\
  _pointer (snd (rewind 1 (snd (next s)))) = _pointer s /\
  getCurrentLineNumber (snd (rewind 1 (snd (next s)))) = getCurrentLineNumber s /\
  exists s3,
    next (snd (rewind 1 (snd (next s)))) = (Returns g, s3) /\
    getCurrentLineNumber s3 = getCurrentLineNumber (snd (next s)).
Proof.
  cbv zeta.
  split; [apply (reachable_call (call_addChunk _)), reachable_new|].
  split; [reflexivity|]. split; [reflexivity|].
  apply (rewind_then_next_again
           (scanner_fed ["0"; "SECTION"; "2"; "HEADER"]%string)
           {| code := Num 0; value := VString (lit "SECTION") |}
           (snd (next (scanner_fed ["0"; "SECTION"; "2"; "HEADER"]%string)))).
  - apply (reachable_call (call_addChunk _)), reachable_new.
  - reflexivity.
  - reflexivity.
Defined.

(** C10: [next] is not atomic.  Whenever it throws after its availability
    check, the pointer and the line counter are one line further than
    before, on the value line of the group, and nothing puts them back;
    and it does throw there when the code line reads a code in 290-299
    and the trimmed value line is neither "0" nor "1". *)
Theorem next_not_atomic s :
  hasNext s = true ->
  (forall e s', next s = (Throws e, s') ->
     s' = advance 1 s /\
     _pointer s' = _pointer s + 1 /\ _lineNumber s' = _lineNumber s + 1) /\
  (forall codeLine valueLine,
     index (lines s) (_pointer s) = Some codeLine ->
     index (lines s) (_pointer s + 1) = Some valueLine ->
     between 290 (parseInt codeLine) 299 = true ->
     trim valueLine <> lit "0" -> trim valueLine <> lit "1" ->
     exists e,
       next s = (Throws e, advance 1 s) /\
       index (lines (advance 1 s)) (_pointer (advance 1 s)) = Some valueLine).
Proof.
  intros H. rewrite (next_available _ H). cbv zeta. split.
  - intros e s' Hthrow.
    destruct (index (lines s) (_pointer s + 1)) as [l|].
    + destruct (fst (parseGroupValue _ (trim l) (advance 1 s))); [discriminate Hthrow|].
      injection Hthrow as _ <-. now repeat split.
    + injection Hthrow as _ <-. now repeat split.
  - intros codeLine valueLine Hc Hv Hb H0 H1. rewrite Hc, Hv. cbn [ToString].
    rewrite parseGroupValue_not_coercible.
    + eexists. split; [reflexivity | exact Hv].
    + apply jsstring_eqb_neq in H0, H1. now rewrite Hb, H0, H1.
Qed.

Lemma next_not_atomic_witness :
  let s := scanner_fed ["290"; "invalid"; "0"; "EOF"]%string in
  hasNext s = true /\
  exists e,
    next s = (Throws e, advance 1 s) /\
    index (lines (advance 1 s)) (_pointer (advance 1 s)) = Some (lit "invalid").
Proof.
  cbv zeta. split; [reflexivity|].
  apply (proj2 (next_not_atomic
                  (scanner_fed ["290"; "invalid"; "0"; "EOF"]%string) eq_refl)
           (lit "290") (lit "invalid")); try reflexivity; discriminate.
Defined.

(** ** parseStreamIncremental *)

Module IncrementalFacts.
Import Incremental.

Section Handlers.

Variable parseFn : M unit.
Variable fuel : nat.

Lemma emit_app evs1 : forall evs2 p,
  emit parseFn fuel (evs1 ++ evs2) p
  = match emit parseFn fuel evs1 p with
    | Some p' => emit parseFn fuel evs2 p'
    | None => None
    end.
Proof.
  induction evs1 as [|ev evs1 IH]; intros evs2 p; [reflexivity|].
  cbn [app emit]. destruct (listener parseFn fuel ev p); [apply IH | reflexivity].
Qed.

(** A settled promise stays as it is. *)
Lemma settled_listener ev p p' :
  result p <> Pending ->
  listener parseFn fuel ev p = Some p' -> result p' = result p.
Proof.
  intros Hs H. destruct ev as [chunk| |err]; cbn [listener] in H.
  - destruct (data_body parseFn chunk fuel (scanner p)) as [[[u|e] s']|];
      [| |discriminate H]; injection H as <-; cbn [result]; [reflexivity|].
    destruct (result p); [congruence | reflexivity | reflexivity].
  - destruct (end_body parseFn fuel (scanner p)) as [[[u|e] s']|];
      [| |discriminate H]; injection H as <-; cbn [result];
      destruct (result p); congruence || reflexivity.
  - injection H as <-. cbn [result].
    destruct (result p); [congruence | reflexivity | reflexivity].
Qed.

Lemma settled_emit evs : forall p p',
  result p <> Pending ->
  emit parseFn fuel evs p = Some p' -> result p' = result p.
Proof.
  induction evs as [|ev evs IH]; intros p p' Hs H; cbn [emit] in H.
  - now injection H as <-.
  - destruct (listener parseFn fuel ev p) as [p1|] eqn:L; [|discriminate H].
    pose proof (settled_listener _ _ _ Hs L) as R1.
    rewrite <- R1. apply IH; [congruence | exact H].
Qed.

(** What the error listener does: when the stream emits an error while
    the promise is still pending, the listener returns normally and rejects
    the promise with a [DxfParseError] whose message is the fixed text
    "Stream error" and whose [cause] is the stream's error; whatever the
    stream emits later, the promise stays rejected with it and is never
    fulfilled. *)
Theorem stream_error_rejects before err p :
  emit parseFn fuel before start = Some p ->
  result p = Pending ->
  exists p' reason,
    emit parseFn fuel (before ++ [error err]) start = Some p' /\
    scanner p' = scanner p /\
    result p' = Rejected reason /\
    isDxfParseError reason = true /\
    exn_cause reason = Some err /\
    option_map Error_message (exn_cause reason) = Some (Error_message err) /\
    exn_message reason = Some (lit "Stream error") /\
    forall later p'',
      emit parseFn fuel (before ++ [error err] ++ later) start = Some p'' ->
      result p'' = Rejected reason.
Proof.
  intros Hb Hp.
  exists {| scanner := scanner p;
            result := Rejected (new_DxfParseError (lit "Stream error") None None
                                  (Some err)) |},
    (new_DxfParseError (lit "Stream error") None None (Some err)).
  split.
  { rewrite emit_app, Hb. cbn [emit listener]. now rewrite Hp. }
  do 6 (split; [reflexivity|]).
  intros later p'' H.
  rewrite emit_app, Hb in H. cbn [app emit listener] in H. rewrite Hp in H.
  cbn [reject] in H.
  apply settled_emit in H; [exact H | cbn [result]; discriminate].
Qed.

End Handlers.

Lemma stream_error_rejects_witness :
  let parseFn := (next ;; ret tt)%method in
  let before := [data (text ["0"; "SECTION"; "2"]%string)] in
  let err := {| Error_message := lit "Stream read error" |} in
  exists p,
    emit parseFn 8 before start = Some p /\ result p = Pending /\
    exists p' reason,
      emit parseFn 8 (before ++ [error err]) start = Some p' /\
      result p' = Rejected reason /\
      exn_cause reason = Some err /\
      forall later p'',
        emit parseFn 8 (before ++ [error err] ++ later) start = Some p'' ->
        result p'' = Rejected reason.
Proof.
  cbv zeta.
  exists {| scanner := snd (next (scanner_fed ["0"; "SECTION"; "2"]%string));
            result := Pending |}.
  split; [reflexivity|]. split; [reflexivity|].
  destruct (stream_error_rejects (next ;; ret tt)%method 8
              [data (text ["0"; "SECTION"; "2"]%string)]
              {| Error_message := lit "Stream read error" |}
              {| scanner := snd (next (scanner_fed ["0"; "SECTION"; "2"]%string));
                 result := Pending |} eq_refl eq_refl)
    as (p' & reason & He & _ & Hr & _ & Hc & _ & _ & Hlater).
  exists p', reason. repeat split; assumption.
Defined.

(** C9 (a defect of the code): the rejection does not carry the message of
    the stream's error.  A stream that fails with "Stream read error" makes
    the promise reject (nothing is thrown, nothing is fulfilled) with a
    [DxfParseError] whose message is "Stream error", whatever the parse
    step: the text of the stream's error is not in it, and can only be
    reached through [cause]. *)
Theorem stream_error_message_not_carried (parseFn : M unit) (fuel : nat) :
  let err := {| Error_message := lit "Stream read error" |} in
  let reason := DxfParseError (lit "Stream error") None None (Some err) in
  parseStreamIncremental parseFn fuel [error err]
  = Some {| scanner := new_DxfStreamScanner; result := Rejected reason |} /\
  exn_message reason = Some (lit "Stream error") /\
  includes (lit "Stream error") (Error_message err) = false /\
  exn_cause reason = Some err.
Proof. cbv zeta. repeat split; reflexivity. Qed.

End IncrementalFacts.

(** * Further properties of the scanner *)

(** ** Lines and line endings *)

Lemma split_plain c x :
  isTerminator c = false ->
  split (c :: x)
  = match split x with
    | line :: more => (c :: line) :: more
    | [] => [[c]]
    end.
Proof.
  unfold isTerminator. intros H. apply orb_false_iff in H as [Hc Hl].
  cbn [split]. now rewrite Hc, Hl.
Qed.

Lemma split_terminatorFree s : terminatorFree s = true -> split s = [s].
Proof.
  induction s as [|c s IH]; [reflexivity|].
  cbn [terminatorFree forallb]. intros H. apply andb_true_iff in H as [Hc Hs].
  apply negb_true_iff in Hc. rewrite (split_plain _ _ Hc).
  fold (terminatorFree s) in Hs. now rewrite (IH Hs).
Qed.

(** A terminator-free prefix joins the first line of what follows. *)
Lemma split_line l rest :
  terminatorFree l = true ->
  split (l ++ rest)
  = match split rest with
    | first :: more => (l ++ first) :: more
    | [] => [l]
    end.
Proof.
  induction l as [|c l IH]; intros H.
  - cbn [app]. destruct (split rest) eqn:E; [now apply split_not_nil in E | reflexivity].
  - cbn [terminatorFree forallb] in H. apply andb_true_iff in H as [Hc Hl].
    apply negb_true_iff in Hc. fold (terminatorFree l) in Hl.
    cbn [app]. rewrite (split_plain _ _ Hc), (IH Hl).
    destruct (split rest) as [|first more] eqn:E; [|reflexivity].
    now apply split_not_nil in E.
Qed.

Lemma split_line_ending l e rest :
  terminatorFree l = true ->
  match e with ending_CR => startsWithLF rest | _ => false end = false ->
  split (l ++ ending_text e ++ rest) = l :: split rest.
Proof.
  intros Hl He. rewrite (split_line _ _ Hl).
  assert (E : split (ending_text e ++ rest) = [] :: split rest).
  { destruct e; cbn [ending_text app split]; cbn.
    - reflexivity.
    - destruct rest as [|d rest']; [reflexivity|].
      cbn [startsWithLF] in He. now rewrite He.
    - reflexivity. }
  rewrite E. now rewrite app_nil_r.
Qed.

Lemma split_clean_bounded n : forall s,
  (List.length s <= n)%nat -> Forall (fun l => terminatorFree l = true) (split s).
Proof.
  induction n as [|n IH]; intros s Hlen.
  - destruct s; [repeat constructor | simpl in Hlen; lia].
  - destruct s as [|c rest]; [repeat constructor|].
    simpl in Hlen. cbn [split].
    destruct (c =? CR)%N eqn:Hc.
    + destruct rest as [|d rest'].
      * repeat constructor.
      * destruct (d =? LF)%N; constructor; try reflexivity; apply IH;
          simpl in *; lia.
    + destruct (c =? LF)%N eqn:Hl.
      * constructor; [reflexivity | apply IH; lia].
      * pose proof (IH rest ltac:(lia)) as F.
        destruct (split rest) as [|line more] eqn:E; [now apply split_not_nil in E|].
        inversion F as [|? ? Hline Hmore]; subst.
        constructor; [|exact Hmore].
        cbn [terminatorFree forallb]. unfold isTerminator. rewrite Hc, Hl. exact Hline.
Qed.

(** No line that [split] yields holds a line ending. *)
Lemma split_clean s : Forall (fun l => terminatorFree l = true) (split s).
Proof. apply (split_clean_bounded (List.length s)). lia. Qed.

Lemma split_two_lines s :
  terminatorFree s = false -> (2 <= List.length (split s))%nat.
Proof.
  assert (P : forall x, (1 <= List.length (split x))%nat).
  { intros x. pose proof (split_not_nil x). destruct (split x); [congruence | simpl; lia]. }
  induction s as [|c s IH]; [discriminate|].
  cbn [terminatorFree forallb]. intros H.
  destruct (isTerminator c) eqn:T.
  - unfold isTerminator in T. cbn [split].
    destruct (c =? CR)%N.
    + destruct s as [|d s']; [simpl; lia|].
      destruct (d =? LF)%N; cbn [List.length].
      * pose proof (P s'). lia.
      * pose proof (P (d :: s')). lia.
    + cbn [orb] in T. rewrite T. cbn [List.length]. pose proof (P s). lia.
  - cbn [negb andb] in H. fold (terminatorFree s) in H.
    rewrite (split_plain _ _ T). specialize (IH H).
    destruct (split s); simpl in *; lia.
Qed.

Lemma Forall_removelast {A} (P : A -> Prop) l : Forall P l -> Forall P (removelast l).
Proof.
  induction 1 as [|x l Hx Hl IH]; [constructor|].
  destruct l; [constructor|]. cbn [removelast]. now constructor.
Qed.

Lemma Forall_last_elt {A} (P : A -> Prop) l d : Forall P l -> l <> [] -> P (last l d).
Proof.
  induction 1 as [|x l Hx Hl IH]; [congruence|]. intros _.
  destruct l; [exact Hx|]. apply IH. discriminate.
Qed.

Lemma startsWithLF_app a b :
  startsWithLF (a ++ b) = match a with [] => startsWithLF b | _ => startsWithLF a end.
Proof. now destruct a. Qed.

Lemma terminatorFree_startsWithLF s : terminatorFree s = true -> startsWithLF s = false.
Proof.
  destruct s as [|c s]; [reflexivity|]. cbn [terminatorFree forallb startsWithLF].
  intros H. apply andb_true_iff in H as [H _]. apply negb_true_iff in H.
  unfold isTerminator in H. now apply orb_false_iff in H.
Qed.

Lemma split_document ls : forall tail,
  Forall (fun l => terminatorFree l = true) (map fst ls) ->
  endings_unambiguous ls = true ->
  terminatorFree tail = true ->
  split (document ls ++ tail) = map fst ls ++ [tail].
Proof.
  induction ls as [|[l e] more IH]; intros tail Hls Hu Ht.
  - now apply split_terminatorFree.
  - cbn [map fst] in Hls. inversion Hls as [|? ? Hl Hmore]; subst.
    cbn [endings_unambiguous] in Hu. apply andb_true_iff in Hu as [He Hu].
    apply negb_true_iff in He.
    cbn [document map fst]. rewrite <- !app_assoc.
    rewrite (split_line_ending _ _ _ Hl).
    + cbn [app]. f_equal. now apply IH.
    + destruct e; try reflexivity.
      rewrite startsWithLF_app. destruct (document more) eqn:D.
      * now apply terminatorFree_startsWithLF.
      * exact He.
Qed.

Lemma addChunk_eq chunk s :
  addChunk chunk s
  = (Returns (Z.of_nat (List.length (removelast (split (buffer s ++ chunk))))),
     set_lines (lines s ++ removelast (split (buffer s ++ chunk)))
       (set_buffer (last (split (buffer s ++ chunk)) []) s)).
Proof.
  rewrite (surjective_pairing (addChunk chunk s)).
  now rewrite addChunk_returns, addChunk_state.
Qed.

Lemma finalize_eq s :
  finalize s
  = (Returns tt,
     match buffer s with
     | [] => s
     | _ => set_buffer [] (set_lines (lines s ++ [buffer s]) s)
     end).
Proof. unfold finalize, bind, this, assign, ret. now destruct (buffer s). Qed.

Lemma call_keeps_text c s :
  match c with call_addChunk _ | call_finalize => False | _ => True end ->
  buffer (after c s) = buffer s /\ lines (after c s) = lines s.
Proof.
  destruct c as [chunk| | | |n]; cbn [after]; intros H; try contradiction.
  - destruct (next_effect s) as (B & L & _). now split.
  - now rewrite peek_frame.
  - now rewrite rewind_state.
Qed.

(** X2: whatever calls a scanner has served, neither its trailing buffer
    nor any of its completed lines holds a carriage return or a line
    feed. *)
Theorem buffered_text_has_no_line_ending s :
  reachable s ->
  terminatorFree (buffer s) = true /\
  Forall (fun l => terminatorFree l = true) (lines s).
Proof.
  induction 1 as [|c s R [IHb IHl]]; [split; [reflexivity | constructor]|].
  destruct c as [chunk| | | |n].
  - cbn [after]. rewrite addChunk_state. cbn [buffer lines set_lines set_buffer]. split.
    + apply (Forall_last_elt _ _ _ (split_clean _) (split_not_nil _)).
    + apply Forall_app. split; [exact IHl|].
      apply Forall_removelast, split_clean.
  - cbn [after]. rewrite finalize_eq. cbn [snd].
    destruct (buffer s) eqn:B; [split; [now rewrite B | exact IHl]|].
    cbn [buffer lines set_lines set_buffer]. split; [reflexivity|].
    apply Forall_app. split; [exact IHl | now repeat constructor].
  - destruct (call_keeps_text call_next s I) as [-> ->]. now split.
  - destruct (call_keeps_text call_peek s I) as [-> ->]. now split.
  - destruct (call_keeps_text (call_rewind n) s I) as [-> ->]. now split.
Qed.

Lemma buffered_text_has_no_line_ending_witness :
  let s := after_all [call_addChunk (lit "0" ++ [CR]); call_addChunk ([LF] ++ lit "SEC");
                      call_next; call_addChunk (lit "TION" ++ [CR; LF] ++ lit "2");
                      call_rewind 1; call_finalize]
             new_DxfStreamScanner in
  lines s = [lit "0"; []; lit "SECTION"; lit "2"] /\
  terminatorFree (buffer s) = true /\
  Forall (fun l => terminatorFree l = true) (lines s).
Proof.
  cbv zeta. split; [reflexivity|].
  apply buffered_text_has_no_line_ending.
  repeat apply reachable_call. apply reachable_new.
Defined.

(** Line-ending tolerance, within the host's argument limit.  A scanner
    with an empty buffer that is fed, in one chunk, lines ended each by
    "\n", "\r" or "\r\n" (no lone "\r" directly before a "\n"),
    followed by an unfinished line, completes
    exactly those lines, reports their number, and keeps the unfinished
    line as its buffer; [finalize] then appends that line if it is not
    empty. *)
Theorem addChunk_document ls tail s :
  buffer s = [] ->
  Forall (fun l => terminatorFree l = true) (map fst ls) ->
  endings_unambiguous ls = true ->
  terminatorFree tail = true ->
  addChunk (document ls ++ tail) s
  = (Returns (Z.of_nat (List.length ls)),
     set_lines (lines s ++ map fst ls) (set_buffer tail s)) /\
  lines (snd ((addChunk (document ls ++ tail) ;; finalize) s))
  = lines s ++ map fst ls ++ match tail with [] => [] | _ => [tail] end.
Proof.
  intros Hb Hls Hu Ht.
  assert (E : addChunk (document ls ++ tail) s
              = (Returns (Z.of_nat (List.length ls)),
                 set_lines (lines s ++ map fst ls) (set_buffer tail s))).
  { rewrite addChunk_eq, Hb. cbn [app].
    rewrite (split_document _ _ Hls Hu Ht), removelast_last, last_last.
    now rewrite length_map. }
  split; [exact E|].
  unfold bind. rewrite E, finalize_eq. cbn [snd buffer set_lines set_buffer].
  destruct tail; cbn [lines set_lines set_buffer].
  - now rewrite app_nil_r.
  - now rewrite <- app_assoc.
Qed.

Lemma addChunk_document_witness :
  let ls := [(lit "0", ending_LF); (lit "SECTION", ending_CRLF); ([], ending_CR);
             (lit "2", ending_CR)] in
  let chunk := lit "0" ++ [LF] ++ lit "SECTION" ++ [CR; LF; CR] ++ lit "2" ++ [CR]
               ++ lit "HEADER" in
  document ls ++ lit "HEADER" = chunk /\
  addChunk chunk new_DxfStreamScanner
  = (Returns 4,
     set_lines [lit "0"; lit "SECTION"; []; lit "2"]
       (set_buffer (lit "HEADER") new_DxfStreamScanner)) /\
  lines (snd ((addChunk chunk ;; finalize) new_DxfStreamScanner))
  = [lit "0"; lit "SECTION"; []; lit "2"; lit "HEADER"].
Proof.
  cbv zeta. split; [reflexivity|].
  apply (addChunk_document
           [(lit "0", ending_LF); (lit "SECTION", ending_CRLF); ([], ending_CR);
            (lit "2", ending_CR)] (lit "HEADER") new_DxfStreamScanner);
    try reflexivity.
  repeat constructor.
Defined.

(** X4: on a scanner whose buffer holds no line ending, [addChunk]
    answers 0 exactly for a chunk with no carriage return and no line feed
    in it, and such a chunk is only appended to the buffer: the completed
    lines, and so what [next] and [peek] see, stay as they are. *)
Theorem addChunk_without_ending chunk s :
  terminatorFree (buffer s) = true ->
  (fst (addChunk chunk s) = Returns 0 <-> terminatorFree chunk = true) /\
  (terminatorFree chunk = true ->
   snd (addChunk chunk s) = set_buffer (buffer s ++ chunk) s).
Proof.
  intros Hb.
  assert (F : terminatorFree chunk = true ->
              split (buffer s ++ chunk) = [buffer s ++ chunk]).
  { intros Hc. apply split_terminatorFree. unfold terminatorFree in *.
    rewrite forallb_app. now rewrite Hb, Hc. }
  split; [split|].
  - intros H0. destruct (terminatorFree chunk) eqn:Hc; [reflexivity|].
    assert (T : terminatorFree (buffer s ++ chunk) = false).
    { unfold terminatorFree in *. rewrite forallb_app. now rewrite Hc, andb_false_r. }
    apply split_two_lines in T.
    rewrite addChunk_returns in H0. injection H0 as H0.
    destruct (split (buffer s ++ chunk)) as [|a [|b l]]; simpl in T; try lia.
    cbn [removelast List.length] in H0. lia.
  - intros Hc. rewrite addChunk_returns, (F Hc). reflexivity.
  - intros Hc. rewrite addChunk_state, (F Hc).
    cbn [removelast last]. unfold set_lines, set_buffer.
    cbn [buffer lines _pointer _eof _lineNumber lastReadGroup].
    now rewrite app_nil_r.
Qed.

Lemma addChunk_without_ending_witness :
  let s := snd (addChunk (lit "0" ++ [LF] ++ lit "SEC") new_DxfStreamScanner) in
  terminatorFree (buffer s) = true /\
  fst (addChunk (lit "TION") s) = Returns 0 /\
  snd (addChunk (lit "TION") s) = set_buffer (lit "SECTION") s.
Proof.
  cbv zeta. split; [reflexivity|].
  destruct (addChunk_without_ending (lit "TION")
              (snd (addChunk (lit "0" ++ [LF] ++ lit "SEC") new_DxfStreamScanner))
              eq_refl) as [H0 Hs].
  split; [apply H0; reflexivity | apply Hs; reflexivity].
Defined.

(** Within the host's argument limit, a new scanner that is fed a text
    in chunks (none cut between a carriage return and its line feed) and
    then finalized holds the lines
    that splitting the whole text at once gives, less the empty string that
    the split leaves after a final line ending. *)
Theorem finalized_lines_are_the_split chunk more :
  cuts_outside_CRLF chunk more = true ->
  let whole := chunk ++ List.concat more in
  lines (snd ((addChunks (chunk :: more) ;; finalize) new_DxfStreamScanner))
  = match last (split whole) [] with
    | [] => removelast (split whole)
    | _ => split whole
    end.
Proof.
  intros Hcuts. cbv zeta.
  rewrite run_then_finalize by apply addChunks_returns.
  pose proof (addChunks_as_one_chunk more chunk new_DxfStreamScanner Hcuts) as E.
  unfold jsstring, codeUnit in *. rewrite E. clear E.
  rewrite addChunk_state, finalize_eq.
  cbn [snd buffer lines set_lines set_buffer new_DxfStreamScanner app].
  unfold jsstring, codeUnit.
  match goal with |- context [match ?x with [] => _ | _ => _ end] =>
    destruct x eqn:E end; [reflexivity|].
  cbn [lines set_lines set_buffer]. rewrite <- E.
  symmetry. apply app_removelast_last, split_not_nil.
Qed.

Lemma finalized_lines_are_the_split_witness :
  lines (snd ((addChunks [lit "0" ++ [LF] ++ lit "SEC"; lit "TION" ++ [CR; LF] ++ lit "2"]
               ;; finalize) new_DxfStreamScanner))
  = [lit "0"; lit "SECTION"; lit "2"] /\
  lines (snd ((addChunks [lit "0" ++ [LF] ++ lit "SEC"; lit "TION" ++ [CR; LF]]
               ;; finalize) new_DxfStreamScanner))
  = [lit "0"; lit "SECTION"].
Proof.
  split.
  - apply (finalized_lines_are_the_split (lit "0" ++ [LF] ++ lit "SEC")
             [lit "TION" ++ [CR; LF] ++ lit "2"]). reflexivity.
  - apply (finalized_lines_are_the_split (lit "0" ++ [LF] ++ lit "SEC")
             [lit "TION" ++ [CR; LF]]). reflexivity.
Defined.

(** [finalize] always leaves the buffer empty, and calling it again
    changes nothing. *)
Theorem finalize_idempotent s :
  buffer (snd (finalize s)) = [] /\
  finalize (snd (finalize s)) = (Returns tt, snd (finalize s)).
Proof.
  rewrite (finalize_eq s). cbn [snd].
  destruct (buffer s) eqn:B.
  - split; [exact B | now rewrite finalize_eq, B].
  - split; [reflexivity | now rewrite finalize_eq].
Qed.

(** ** Input and the cursor *)

Lemma index_app_prefix {A} (l added : list A) i :
  i < Z.of_nat (List.length l) -> index (l ++ added) i = index l i.
Proof.
  intros H. unfold index. destruct (i <? 0) eqn:N; [reflexivity|].
  apply Z.ltb_ge in N. apply nth_error_app1. lia.
Qed.

Lemma index_None_inv {A} (l : list A) i :
  index l i = None -> i < 0 \/ Z.of_nat (List.length l) <= i.
Proof.
  unfold index. destruct (Z.ltb_spec i 0); [now left|].
  intros H'. apply nth_error_None in H'. right. lia.
Qed.

Lemma input_call_effect c s :
  match c with call_addChunk _ | call_finalize => True | _ => False end ->
  (exists added, lines (after c s) = lines s ++ added) /\
  _pointer (after c s) = _pointer s /\ _eof (after c s) = _eof s /\
  _lineNumber (after c s) = _lineNumber s /\
  lastReadGroup (after c s) = lastReadGroup s.
Proof.
  destruct c as [chunk| | | |n]; cbn [after]; intros H; try contradiction.
  - rewrite addChunk_state. cbn. split; [now eexists | now repeat split].
  - rewrite finalize_eq. cbn [snd]. destruct (buffer s); cbn.
    + split; [exists []; now rewrite app_nil_r | now repeat split].
    + split; [now eexists | now repeat split].
Qed.

(** X6: the completed lines only ever grow at the end: after any calls
    they are the lines held before, followed by the lines added since. *)
Theorem lines_only_grow calls : forall s,
  exists added, lines (after_all calls s) = lines s ++ added.
Proof.
  induction calls as [|c calls IH]; intros s.
  - exists []. cbn. now rewrite app_nil_r.
  - cbn [after_all fold_left]. destruct (IH (after c s)) as [added2 E2].
    fold (after_all calls (after c s)). unfold after_all in E2 |- *. rewrite E2.
    assert (E1 : exists added1, lines (after c s) = lines s ++ added1).
    { destruct c as [chunk| | | |n].
      - apply (input_call_effect (call_addChunk chunk) s I).
      - apply (input_call_effect call_finalize s I).
      - exists []. rewrite app_nil_r. apply (call_keeps_text call_next s I).
      - exists []. rewrite app_nil_r. apply (call_keeps_text call_peek s I).
      - exists []. rewrite app_nil_r. apply (call_keeps_text (call_rewind n) s I). }
    destruct E1 as [added1 ->]. exists (added1 ++ added2). now rewrite app_assoc.
Qed.

Lemma peek_returns_inv s g :
  fst (peek s) = Returns g ->
  hasNext s = true /\
  exists l,
    index (lines s) (_pointer s + 1) = Some l /\
    code g = parseInt (ToString (index (lines s) (_pointer s))) /\
    fst (parseGroupValue (code g) (trim l) s) = Returns (value g).
Proof.
  intros H. destruct (hasNext s) eqn:Hn.
  - split; [reflexivity|]. rewrite (peek_available _ Hn) in H. cbv zeta in H.
    destruct (index (lines s) (_pointer s + 1)) as [l|]; [|discriminate H].
    exists l. split; [reflexivity|].
    destruct (fst (parseGroupValue _ (trim l) s)) as [v|e] eqn:P; [|discriminate H].
    injection H as <-. cbn [code value]. now split.
  - rewrite (peek_unavailable _ Hn) in H. discriminate H.
Qed.

(** X7: text that arrives later does not change the group that is ready
    to be read: when [peek] returns a group, then after a further
    [addChunk] or after [finalize] both [peek] and [next] return that same
    group. *)
Theorem more_input_keeps_the_group s g c :
  match c with call_addChunk _ | call_finalize => True | _ => False end ->
  fst (peek s) = Returns g ->
  fst (peek (after c s)) = Returns g /\ fst (next (after c s)) = Returns g.
Proof.
  intros Hc Hp.
  destruct (peek_returns_inv _ _ Hp) as (Hn & l & Hl & Hcode & Hv).
  destruct (input_call_effect c s Hc) as ([added La] & Pp & Pe & Pl & _).
  assert (Hn' : hasNext (after c s) = true).
  { unfold hasNext in *. rewrite Pe, Pp, La, length_app.
    destruct (_eof s); [discriminate|].
    apply Z.leb_le in Hn. apply Z.leb_le. lia. }
  assert (B : _pointer s + 1 < Z.of_nat (List.length (lines s))).
  { unfold hasNext in Hn. destruct (_eof s); [discriminate|]. apply Z.leb_le in Hn. lia. }
  rewrite (peek_available _ Hn'), (next_available _ Hn'). cbv zeta.
  rewrite Pp, La, !index_app_prefix by lia.
  rewrite Hl, <- Hcode.
  rewrite !(parseGroupValue_returns_anywhere _ _ _ _ Hv). cbn [fst].
  destruct g; now split.
Qed.

Lemma more_input_keeps_the_group_witness :
  let s := scanner_fed ["0"; "SECTION"]%string in
  let g := {| code := Num 0; value := VString (lit "SECTION") |} in
  fst (peek s) = Returns g /\
  fst (peek (after (call_addChunk (text ["2"; "HEADER"]%string)) s)) = Returns g /\
  fst (next (after (call_addChunk (text ["2"; "HEADER"]%string)) s)) = Returns g.
Proof.
  cbv zeta. split; [reflexivity|].
  apply (more_input_keeps_the_group (scanner_fed ["0"; "SECTION"]%string)
           {| code := Num 0; value := VString (lit "SECTION") |}
           (call_addChunk (text ["2"; "HEADER"]%string)) I eq_refl).
Defined.

(** X8: [next] returns a group exactly when [hasNext] is true and the
    value line can be coerced under the group code, and so does [peek]. *)
Theorem next_peek_return_exactly_when s :
  ((exists g, fst (next s) = Returns g) <-> hasNext s = true /\ coercible s = true) /\
  ((exists g, fst (peek s) = Returns g) <-> hasNext s = true /\ coercible s = true).
Proof.
  destruct (hasNext s) eqn:Hn.
  - rewrite (next_available _ Hn), (peek_available _ Hn). unfold coercible. cbv zeta.
    destruct (index (lines s) (_pointer s + 1)) as [l|].
    + match goal with |- context [negb ?a || ?b || ?c] =>
        destruct (negb a || b || c) eqn:C end.
      * destruct (parseGroupValue_coercible _ _ s C) as [v Hv].
        rewrite Hv, (parseGroupValue_returns_anywhere _ _ _ _ Hv (advance 1 s)).
        cbn [fst]. split; (split; [now split | now eexists]).
      * rewrite !(parseGroupValue_not_coercible _ _ _ C). cbn [fst].
        split; (split; [intros [g H]; discriminate H | intros [_ H]; discriminate H]).
    + cbn [fst].
      split; (split; [intros [g H]; discriminate H | intros [_ H]; discriminate H]).
  - rewrite (next_unavailable _ Hn), (peek_unavailable _ Hn). cbn [fst].
    split; (split; [intros [g H]; discriminate H | intros [H _]; discriminate H]).
Qed.

(** X9: what [next] and [peek] throw.  It is a [DxfParseError] whose line
    is the line counter of the scanner as the throw leaves it, with no
    section and no cause; or, only when the pointer is below -1 and EOF has
    not been read, a [TypeError]. *)
Theorem thrown_errors_carry_the_line s e s' :
  next s = (Throws e, s') \/ peek s = (Throws e, s') ->
  (exists m, e = DxfParseError m (Some (getCurrentLineNumber s')) None None) \/
  (e = TypeError /\ _pointer s < -1 /\ isEOF s = false).
Proof.
  intros H. destruct (hasNext s) eqn:Hn.
  - assert (E : _eof s = false /\ _pointer s + 1 < Z.of_nat (List.length (lines s))).
    { unfold hasNext in Hn. destruct (_eof s); [discriminate|].
      apply Z.leb_le in Hn. split; [reflexivity | lia]. }
    destruct E as [E B].
    rewrite (next_available _ Hn), (peek_available _ Hn) in H. cbv zeta in H.
    destruct (index (lines s) (_pointer s + 1)) as [l|] eqn:I.
    + left.
      destruct H as [H|H].
      * destruct (parseGroupValue (parseInt (ToString (index (lines s) (_pointer s))))
                    (trim l) (advance 1 s)) as [[v|e0] s0] eqn:P;
          cbn [fst] in H; [discriminate H|].
        injection H as <- <-.
        rewrite parseGroupValue_table in P.
        destruct (documented_category _); try discriminate P.
        destruct (jsstring_eqb _ _); [discriminate P|].
        destruct (jsstring_eqb _ _); [discriminate P|].
        injection P as <- _. now eexists.
      * destruct (parseGroupValue (parseInt (ToString (index (lines s) (_pointer s))))
                    (trim l) s) as [[v|e0] s0] eqn:P;
          cbn [fst] in H; [discriminate H|].
        injection H as <- <-.
        rewrite parseGroupValue_table in P.
        destruct (documented_category _); try discriminate P.
        destruct (jsstring_eqb _ _); [discriminate P|].
        destruct (jsstring_eqb _ _); [discriminate P|].
        injection P as <- _. now eexists.
    + right. apply index_None_inv in I.
      destruct H as [H|H]; injection H as <- _; (split; [reflexivity | split; [lia | exact E]]).
  - left. rewrite (next_unavailable _ Hn), (peek_unavailable _ Hn) in H.
    destruct H as [H|H]; injection H as <- <-; now eexists.
Qed.

Lemma thrown_errors_carry_the_line_witness :
  let s := snd (next (scanner_fed ["0"; "SECTION"; "290"; "yes"]%string)) in
  exists e s',
    next s = (Throws e, s') /\ getCurrentLineNumber s' = 3 /\
    ((exists m, e = DxfParseError m (Some (getCurrentLineNumber s')) None None) \/
     (e = TypeError /\ _pointer s < -1 /\ isEOF s = false)).
Proof.
  cbv zeta.
  exists (new_DxfParseError (lit "Value 'yes' cannot be cast to Boolean type")
            (Some 3) None None),
    (advance 1 (snd (next (scanner_fed ["0"; "SECTION"; "290"; "yes"]%string)))).
  split; [reflexivity|]. split; [reflexivity|].
  apply (thrown_errors_carry_the_line
           (snd (next (scanner_fed ["0"; "SECTION"; "290"; "yes"]%string)))).
  left. reflexivity.
Defined.

(** ** Invariants of the cursor *)

Lemma isEOFGroup_true c v :
  isEOFGroup c v = true <-> c = Num 0 /\ v = VString (lit "EOF").
Proof.
  unfold isEOFGroup. split.
  - intros H. apply andb_true_iff in H as [Hc Hv].
    destruct c as [|z]; [discriminate Hc|]. cbn in Hc. apply Z.eqb_eq in Hc. subst z.
    destruct v as [t| | |]; try discriminate Hv.
    apply jsstring_eqb_eq in Hv. now subst t.
  - intros [-> ->]. reflexivity.
Qed.

Lemma next_eof_and_last_group s :
  (_eof (snd (next s)) = _eof s /\ lastReadGroup (snd (next s)) = lastReadGroup s) \/
  (exists g, lastReadGroup (snd (next s)) = Some g /\
             _eof (snd (next s)) = isEOFGroup (code g) (value g)).
Proof.
  destruct (hasNext s) eqn:Hn.
  - assert (E : _eof s = false).
    { unfold hasNext in Hn. destruct (_eof s); [discriminate | reflexivity]. }
    rewrite (next_available _ Hn). cbv zeta.
    destruct (index (lines s) (_pointer s + 1)) as [l|]; [|now left].
    destruct (fst (parseGroupValue _ (trim l) (advance 1 s))) as [v|e]; [|now left].
    right. eexists. split; [reflexivity|]. cbn. rewrite E. now destruct (isEOFGroup _ v).
  - rewrite (next_unavailable _ Hn). now left.
Qed.

Lemma reachable_after_all calls : forall s, reachable s -> reachable (after_all calls s).
Proof.
  induction calls as [|c calls IH]; intros s R; [exact R|].
  cbn [after_all fold_left]. apply IH. now apply reachable_call.
Qed.

Lemma reachable_scanner_fed ls : reachable (scanner_fed ls).
Proof. apply (reachable_call (call_addChunk _)), reachable_new. Qed.

(** X10: [isEOF] is true exactly when the last group that [next] returned
    is the EOF group (code 0, value "EOF"): nothing else sets the flag, and
    no group is returned after it. *)
Theorem isEOF_iff_last_group_is_EOF s :
  reachable s ->
  (isEOF s = true <->
   exists g, lastReadGroup s = Some g /\ code g = Num 0 /\ value g = VString (lit "EOF")).
Proof.
  assert (G : forall s : DxfStreamScanner,
            (exists g, lastReadGroup s = Some g /\ code g = Num 0
                       /\ value g = VString (lit "EOF"))
            <-> (exists g, lastReadGroup s = Some g
                           /\ isEOFGroup (code g) (value g) = true)).
  { intros s0. split.
    - intros (g & L & Hc & Hv). exists g. split; [exact L|].
      apply isEOFGroup_true. now split.
    - intros (g & L & H). exists g. split; [exact L|]. now apply isEOFGroup_true. }
  intros R. rewrite G. unfold isEOF. clear G.
  induction R as [|c s R IH].
  - cbn. split; [discriminate | intros (g & L & _); discriminate L].
  - assert (K : _eof (after c s) = _eof s /\ lastReadGroup (after c s) = lastReadGroup s
                -> (_eof (after c s) = true <->
                    exists g, lastReadGroup (after c s) = Some g
                              /\ isEOFGroup (code g) (value g) = true)).
    { intros [-> ->]. exact IH. }
    destruct c as [chunk| | | |n].
    + apply K. destruct (input_call_effect (call_addChunk chunk) s I) as (_ & _ & -> & _ & ->).
      now split.
    + apply K. destruct (input_call_effect call_finalize s I) as (_ & _ & -> & _ & ->).
      now split.
    + cbn [after] in *. destruct (next_eof_and_last_group s) as [H|(g & L & E)].
      * apply K. exact H.
      * rewrite E, L. split.
        -- intros H. now exists g.
        -- intros (g' & L' & H'). now injection L' as <-.
    + apply K. cbn [after]. now rewrite peek_frame.
    + apply K. cbn [after]. now rewrite rewind_state.
Qed.

Lemma isEOF_iff_last_group_is_EOF_witness :
  let s := after_all [call_next; call_next; call_rewind 2; call_addChunk (lit "0")]
             (scanner_fed ["0"; "SECTION"; "0"; "EOF"]%string) in
  isEOF s = true /\
  exists g, lastReadGroup s = Some g /\ code g = Num 0 /\ value g = VString (lit "EOF").
Proof.
  cbv zeta. split; [reflexivity|].
  apply (isEOF_iff_last_group_is_EOF
           (after_all [call_next; call_next; call_rewind 2; call_addChunk (lit "0")]
              (scanner_fed ["0"; "SECTION"; "0"; "EOF"]%string))).
  - apply reachable_after_all, reachable_scanner_fed.
  - reflexivity.
Defined.



(** X12: in every state of a scanner the line counter is not negative and
    not behind the pointer. *)
Theorem lineNumber_not_behind_pointer s :
  reachable s -> 0 <= getCurrentLineNumber s /\ _pointer s <= getCurrentLineNumber s.
Proof.
  unfold getCurrentLineNumber.
  induction 1 as [|c s R [IH0 IHp]]; [cbn; lia|].
  destruct c as [chunk| | | |n].
  - destruct (input_call_effect (call_addChunk chunk) s I) as (_ & -> & _ & -> & _). lia.
  - destruct (input_call_effect call_finalize s I) as (_ & -> & _ & -> & _). lia.
  - cbn [after]. destruct (next_effect s) as (_ & _ & _ & _ & k & Hk & -> & ->). lia.
  - cbn [after]. rewrite peek_frame. lia.
  - cbn [after]. rewrite rewind_pointer, rewind_lineNumber. lia.
Qed.

Lemma lineNumber_not_behind_pointer_witness :
  let s := after_all [call_next; call_rewind 3; call_next]
             (scanner_fed ["0"; "SECTION"]%string) in
  _pointer s = -3 /\ 0 <= getCurrentLineNumber s /\ _pointer s <= getCurrentLineNumber s.
Proof.
  cbv zeta. split; [reflexivity|].
  apply lineNumber_not_behind_pointer.
  apply reachable_after_all, reachable_scanner_fed.
Defined.



(** X14: while EOF has not been read, [needsData] being false means a
    group is available ([hasNext] is true); with a pointer that is not
    negative the two are each other's negation. *)
Theorem needsData_against_hasNext s :
  isEOF s = false ->
  (needsData s = false -> hasNext s = true) /\
  (0 <= _pointer s -> needsData s = negb (hasNext s)).
Proof.
  unfold isEOF, needsData, hasNext. intros ->. rewrite Z.geb_leb.
  destruct (Z.eqb_spec (Z.of_nat (List.length (lines s))) 0);
    destruct (Z.leb_spec (Z.of_nat (List.length (lines s)) - 1) (_pointer s));
    destruct (Z.leb_spec (_pointer s) (Z.of_nat (List.length (lines s)) - 2));
    cbn [orb negb]; split; intros; try reflexivity; try discriminate; lia.
Qed.

Lemma needsData_against_hasNext_witness :
  let s := scanner_fed ["0"; "SECTION"; "2"]%string in
  isEOF s = false /\ needsData s = false /\ hasNext s = true /\
  needsData (snd (next s)) = negb (hasNext (snd (next s))).
Proof.
  cbv zeta. split; [reflexivity|]. split; [reflexivity|].
  split.
  - apply (needsData_against_hasNext (scanner_fed ["0"; "SECTION"; "2"]%string));
      reflexivity.
  - apply (needsData_against_hasNext
             (snd (next (scanner_fed ["0"; "SECTION"; "2"]%string))));
      [reflexivity | apply Z.leb_le; reflexivity].
Defined.

(** ** Error messages *)

(** X15: the message of an error of [errors.ts] starts with the text given
    to its constructor.  For a [DxfParseError] nothing follows exactly when
    neither a line nor a section is given; for a [DxfScannerError] and a
    [DxfValueError] the context always follows. *)
Theorem message_starts_with_text message :
  (forall line section cause,
     exists suffix,
       exn_message (new_DxfParseError message line section cause)
       = Some (message ++ suffix) /\
       (suffix = [] <-> line = None /\ section = None)) /\
  (forall pointer groupCode groupValue cause,
     exists suffix,
       exn_message (new_DxfScannerError message pointer groupCode groupValue cause)
       = Some (message ++ suffix) /\ suffix <> []) /\
  (forall code rawValue expectedType,
     exists suffix,
       exn_message (new_DxfValueError message code rawValue expectedType)
       = Some (message ++ suffix) /\ suffix <> []).
Proof.
  split; [|split].
  - intros [l|] [sec|] cause.
    + eexists. split; [reflexivity|]. split; [discriminate | intros [H _]; discriminate H].
    + eexists. split; [reflexivity|]. split; [discriminate | intros [H _]; discriminate H].
    + eexists. split; [reflexivity|]. split; [discriminate | intros [_ H]; discriminate H].
    + exists []. split; [cbn; now rewrite app_nil_r | now split].
  - intros pointer [gc|] [gv|] cause; eexists; (split; [reflexivity | discriminate]).
  - intros c raw [et|]; eexists; (split; [reflexivity | discriminate]).
Qed.

(** ** The listeners of parseStreamIncremental *)

Module ListenerFacts.
Import Incremental.

Section Handlers.

Variable parseFn : M unit.

Lemma while_exit cond fuel : forall s u s',
  while parseFn cond fuel s = Some (Returns u, s') -> cond s' = false.
Proof.
  induction fuel as [|fuel IH]; intros s u s' H; cbn [while] in H.
  - destruct (cond s) eqn:C; [discriminate H|]. now injection H as _ <-.
  - destruct (cond s) eqn:C; [|now injection H as _ <-].
    destruct (parseFn s) as [[x|e] s1]; [apply (IH _ _ _ H) | discriminate H].
Qed.

Lemma while_terminates cond :
  (forall s u s', parseFn s = (Returns u, s') ->
                  lines s' = lines s /\ _pointer s < _pointer s') ->
  (forall s, cond s = true -> _pointer s <= Z.of_nat (List.length (lines s)) - 2) ->
  forall fuel s,
    (Z.to_nat (Z.of_nat (List.length (lines s)) - 1 - _pointer s) <= fuel)%nat ->
    while parseFn cond fuel s <> None.
Proof.
  intros Hstep Hcond. induction fuel as [|fuel IH]; intros s Hf; cbn [while].
  - destruct (cond s) eqn:C; [|discriminate]. apply Hcond in C. lia.
  - destruct (cond s) eqn:C; [|discriminate]. apply Hcond in C.
    destruct (parseFn s) as [[x|e] s1] eqn:P; [|discriminate].
    destruct (Hstep _ _ _ P) as [L Q]. apply IH. rewrite L. lia.
Qed.

(** X16: the loops of the listeners end.  If each call of the parse step
    that returns has moved the pointer forward and left the lines alone,
    both loops (the one run on a chunk and the one run at the end of the
    stream) stop within as many rounds as there are lines from the pointer
    to the last line. *)
Theorem listener_loops_terminate fuel s :
  (forall s u s', parseFn s = (Returns u, s') ->
                  lines s' = lines s /\ _pointer s < _pointer s') ->
  (Z.to_nat (Z.of_nat (List.length (lines s)) - 1 - _pointer s) <= fuel)%nat ->
  while parseFn (fun s => negb (needsData s) && negb (isEOF s)) fuel s <> None /\
  while parseFn (fun s => negb (isEOF s) && hasNext s) fuel s <> None.
Proof.
  intros Hstep Hf. split; apply while_terminates; try assumption.
  - intros s0 C. apply andb_true_iff in C as [N _]. apply negb_true_iff in N.
    unfold needsData in N. apply orb_false_iff in N as [_ N].
    rewrite Z.geb_leb in N. apply Z.leb_gt in N. lia.
  - intros s0 C. apply andb_true_iff in C as [_ N].
    unfold hasNext in N. destruct (_eof s0); [discriminate|]. now apply Z.leb_le in N.
Qed.

(** X17: the [end] listener settles the promise: when it returns the
    promise is no longer pending; and if it fulfils a promise that was
    pending, no group is left to read ([hasNext] is false). *)
Theorem end_settles fuel p p' :
  listener parseFn fuel end_ p = Some p' ->
  result p' <> Pending /\
  (result p = Pending -> result p' = Fulfilled -> hasNext (scanner p') = false).
Proof.
  cbn [listener]. unfold end_body. rewrite finalize_eq.
  destruct (while _ _ fuel _) as [[[u|e] s']|] eqn:W; [| |discriminate];
    intros H; injection H as <-; cbn [result scanner].
  - split; [destruct (result p); discriminate|]. intros _ _.
    apply while_exit in W. unfold hasNext, isEOF in *.
    destruct (_eof s'); [reflexivity | exact W].
  - split; [destruct (result p); discriminate|]. intros -> H. discriminate H.
Qed.

(** X18: only the [end] listener fulfils the promise: if it is fulfilled
    after a sequence of events and was not before, the stream has emitted
    [end]. *)
Theorem fulfilled_only_by_end fuel evs : forall p p',
  emit parseFn fuel evs p = Some p' ->
  result p <> Fulfilled -> result p' = Fulfilled -> In end_ evs.
Proof.
  induction evs as [|ev evs IH]; intros p p' H Hp Hf; cbn [emit] in H.
  - injection H as <-. contradiction.
  - destruct (listener parseFn fuel ev p) as [p1|] eqn:L; [|discriminate H].
    destruct ev as [chunk| |err]; [right|now left|right];
      apply (IH _ _ H); try exact Hf; cbn [listener] in L.
    + destruct (data_body parseFn chunk fuel (scanner p)) as [[[u|e] s']|];
        [| |discriminate L]; injection L as <-; cbn [result]; [exact Hp|].
      destruct (result p); [discriminate | congruence | discriminate].
    + injection L as <-. cbn [result].
      destruct (result p); [discriminate | congruence | discriminate].
Qed.

End Handlers.

Lemma next_step_advances s u s' :
  (next ;; ret tt)%method s = (Returns u, s') ->
  lines s' = lines s /\ _pointer s < _pointer s'.
Proof.
  unfold bind, ret. destruct (next s) as [[g|e] s1] eqn:N; [|discriminate].
  intros H. injection H as _ <-.
  destruct (next_returns_inv _ _ _ N) as (_ & _ & P & _ & L & _). split; [exact L | lia].
Qed.

Lemma listener_loops_terminate_witness :
  let s := scanner_fed ["0"; "SECTION"; "2"; "HEADER"; "9"]%string in
  while (next ;; ret tt)%method (fun s => negb (needsData s) && negb (isEOF s)) 4 s
  <> None /\
  while (next ;; ret tt)%method (fun s => negb (isEOF s) && hasNext s) 4 s <> None.
Proof.
  cbv zeta.
  apply (listener_loops_terminate (next ;; ret tt)%method 4
           (scanner_fed ["0"; "SECTION"; "2"; "HEADER"; "9"]%string)
           next_step_advances).
  apply Nat.leb_le. reflexivity.
Defined.

Lemma end_settles_witness :
  let p := {| scanner := scanner_fed ["0"; "SECTION"; "0"; "EOF"; "9"]%string;
              result := Pending |} in
  let p' := {| scanner := after_all [call_next; call_next] (scanner p);
               result := Fulfilled |} in
  listener (next ;; ret tt)%method 4 end_ p = Some p' /\
  result p' <> Pending /\ hasNext (scanner p') = false.
Proof.
  cbv zeta.
  assert (L : listener (next ;; ret tt)%method 4 end_
                {| scanner := scanner_fed ["0"; "SECTION"; "0"; "EOF"; "9"]%string;
                   result := Pending |}
              = Some {| scanner :=
                          after_all [call_next; call_next]
                            (scanner_fed ["0"; "SECTION"; "0"; "EOF"; "9"]%string);
                        result := Fulfilled |}) by (vm_compute; reflexivity).
  split; [exact L|].
  destruct (end_settles _ _ _ _ L) as [H1 H2].
  split; [exact H1 | exact (H2 eq_refl eq_refl)].
Defined.

Lemma fulfilled_only_by_end_witness :
  let evs := [data (text ["0"; "SECTION"]%string); data (text ["0"; "EOF"]%string); end_] in
  exists p',
    emit (next ;; ret tt)%method 4 evs start = Some p' /\
    result p' = Fulfilled /\ In end_ evs.
Proof.
  cbv zeta.
  exists {| scanner := after_all [call_next; call_next]
                         (scanner_fed ["0"; "SECTION"; "0"; "EOF"]%string);
            result := Fulfilled |}.
  split; [reflexivity|]. split; [reflexivity|].
  apply (fulfilled_only_by_end (next ;; ret tt)%method 4
           [data (text ["0"; "SECTION"]%string); data (text ["0"; "EOF"]%string); end_]
           start
           {| scanner := after_all [call_next; call_next]
                           (scanner_fed ["0"; "SECTION"; "0"; "EOF"]%string);
              result := Fulfilled |});
    [reflexivity | discriminate | reflexivity].
Defined.

End ListenerFacts.

(** ** The host's limit on the arguments of a call *)

Lemma addChunk_spread_within maxArguments chunk s :
  (List.length (removelast (split (buffer s ++ chunk))) <= maxArguments)%nat ->
  addChunk_spread maxArguments chunk s = addChunk chunk s.
Proof.
  intros H. apply Nat.ltb_ge in H.
  unfold addChunk_spread, addChunk, bind, this, assign, ret, throw.
  cbn [set_buffer set_lines buffer lines _pointer _eof _lineNumber lastReadGroup].
  now rewrite H.
Qed.

Lemma addChunk_spread_beyond maxArguments chunk s :
  (maxArguments < List.length (removelast (split (buffer s ++ chunk))))%nat ->
  addChunk_spread maxArguments chunk s
  = (Throws RangeError, set_buffer (last (split (buffer s ++ chunk)) []) s).
Proof.
  intros H. apply Nat.ltb_lt in H.
  unfold addChunk_spread, bind, this, assign, ret, throw.
  cbn [set_buffer set_lines buffer lines _pointer _eof _lineNumber lastReadGroup].
  now rewrite H.
Qed.

Lemma addChunks_spread_within maxArguments chunks : forall s,
  chunks_within maxArguments s chunks = true ->
  addChunks_spread maxArguments chunks s = addChunks chunks s.
Proof.
  induction chunks as [|c more IH]; intros s H; [reflexivity|].
  cbn [chunks_within] in H. apply andb_true_iff in H as [Hc Hmore].
  apply Nat.leb_le in Hc.
  cbn [addChunks_spread addChunks]. unfold bind.
  rewrite (addChunk_spread_within _ _ _ Hc).
  destruct (addChunk c s) as [[n|e] s'] eqn:E; [|reflexivity].
  apply IH. exact Hmore.
Qed.

(** The lines two chunks complete are those their concatenation
    completes. *)
Lemma addChunk_merge_count c1 c2 s :
  endsWithCR (buffer s ++ c1) && startsWithLF c2 = false ->
  (List.length (removelast (split (buffer s ++ c1)))
   + List.length (removelast (split (buffer (snd (addChunk c1 s)) ++ c2)))
   = List.length (removelast (split (buffer s ++ (c1 ++ c2)))))%nat.
Proof.
  intros Hcut. pose proof (f_equal lines (addChunk_merge _ _ _ Hcut)) as E.
  rewrite (addChunk_state c2), (addChunk_state (c1 ++ c2)) in E.
  cbn [lines set_lines set_buffer] in E.
  rewrite (addChunk_state c1) in E at 1. cbn [lines set_lines set_buffer] in E.
  apply (f_equal (@List.length _)) in E. rewrite !length_app in E. lia.
Qed.

Lemma chunks_within_whole maxArguments more : forall chunk s,
  cuts_outside_CRLF (buffer s ++ chunk) more = true ->
  (List.length (removelast (split (buffer s ++ (chunk ++ List.concat more))))
   <= maxArguments)%nat ->
  chunks_within maxArguments s (chunk :: more) = true.
Proof.
  induction more as [|c2 more IH]; intros c1 s Hcuts Hn.
  - cbn [List.concat] in Hn. rewrite app_nil_r in Hn.
    cbn [chunks_within]. rewrite andb_true_r. now apply Nat.leb_le.
  - cbn [cuts_outside_CRLF] in Hcuts. apply andb_true_iff in Hcuts as [Hcut Hmore].
    apply negb_true_iff in Hcut.
    cbn [List.concat] in Hn. rewrite (app_assoc c1 c2) in Hn.
    rewrite <- app_assoc in Hmore.
    specialize (IH (c1 ++ c2) s Hmore Hn).
    cbn [chunks_within] in IH |- *. apply andb_true_iff in IH as [H12 Hrest].
    apply Nat.leb_le in H12.
    pose proof (addChunk_merge_count _ _ _ Hcut) as C.
    rewrite (addChunk_merge _ _ _ Hcut).
    apply andb_true_iff. split; [apply Nat.leb_le; lia|].
    apply andb_true_iff. split; [apply Nat.leb_le; lia | exact Hrest].
Qed.

(** X1: on a host that takes at most [maxArguments] arguments in a call,
    feeding a text in several chunks and then finalizing leaves the scanner
    exactly as feeding the whole text in one chunk does, provided no cut
    separates a carriage return from its line feed and the whole text
    completes no more than [maxArguments] lines: neither run throws. *)
Theorem chunking_within_limit_is_invisible maxArguments chunk more s :
  cuts_outside_CRLF (buffer s ++ chunk) more = true ->
  (List.length (removelast (split (buffer s ++ (chunk ++ List.concat more))))
   <= maxArguments)%nat ->
  (exists u, fst (addChunks_spread maxArguments (chunk :: more) s) = Returns u) /\
  (exists n, fst (addChunk_spread maxArguments (chunk ++ List.concat more) s)
             = Returns n) /\
  snd ((addChunks_spread maxArguments (chunk :: more) ;; finalize) s)
  = snd ((addChunk_spread maxArguments (chunk ++ List.concat more) ;; finalize) s).
Proof.
  intros Hcuts Hn.
  pose proof (addChunks_spread_within maxArguments (chunk :: more) s
                (chunks_within_whole _ _ _ _ Hcuts Hn)) as E1.
  pose proof (addChunk_spread_within maxArguments _ s Hn) as E2.
  split; [rewrite E1; apply addChunks_returns|].
  split; [rewrite E2; eexists; apply addChunk_returns|].
  unfold bind. rewrite E1, E2.
  pose proof (addChunks_as_one_chunk _ _ _ Hcuts) as E.
  destruct (addChunks_returns (chunk :: more) s) as [u Hu].
  pose proof (addChunk_returns (chunk ++ List.concat more) s) as Hw.
  destruct (addChunks (chunk :: more) s) as [[u'|e] s1]; [|discriminate Hu].
  destruct (addChunk (chunk ++ List.concat more) s) as [[n|e] s2]; [|discriminate Hw].
  cbn [snd] in E. now rewrite E.
Qed.

Lemma chunking_within_limit_is_invisible_witness :
  let chunks := [lit "0" ++ [LF] ++ lit "SEC"; lit "TION" ++ [CR; LF]; lit "2" ++ [CR]] in
  snd ((addChunks_spread 3 chunks ;; finalize) new_DxfStreamScanner)
  = snd ((addChunk_spread 3 (List.concat chunks) ;; finalize) new_DxfStreamScanner) /\
  lines (snd ((addChunks_spread 3 chunks ;; finalize) new_DxfStreamScanner))
  = [lit "0"; lit "SECTION"; lit "2"].
Proof.
  cbv zeta. split; [|reflexivity].
  apply (chunking_within_limit_is_invisible 3 (lit "0" ++ [LF] ++ lit "SEC")
           [lit "TION" ++ [CR; LF]; lit "2" ++ [CR]] new_DxfStreamScanner).
  - reflexivity.
  - apply Nat.leb_le. reflexivity.
Defined.

(** X3: line-ending tolerance.  On a host that takes at most
    [maxArguments] arguments in a call, a scanner with an empty buffer that
    is fed, in one chunk, no more than [maxArguments] lines ended each by
    "\n", "\r" or "\r\n" (no lone "\r" directly before a "\n"), followed by
    an unfinished line, completes exactly those lines, reports their
    number, and keeps the unfinished line as its buffer; [finalize] then
    appends that line if it is not empty. *)
Theorem addChunk_spread_document maxArguments ls tail s :
  buffer s = [] ->
  Forall (fun l => terminatorFree l = true) (map fst ls) ->
  endings_unambiguous ls = true ->
  terminatorFree tail = true ->
  (List.length ls <= maxArguments)%nat ->
  addChunk_spread maxArguments (document ls ++ tail) s
  = (Returns (Z.of_nat (List.length ls)),
     set_lines (lines s ++ map fst ls) (set_buffer tail s)) /\
  lines (snd ((addChunk_spread maxArguments (document ls ++ tail) ;; finalize) s))
  = lines s ++ map fst ls ++ match tail with [] => [] | _ => [tail] end.
Proof.
  intros Hb Hls Hu Ht Hn.
  assert (W : addChunk_spread maxArguments (document ls ++ tail) s
              = addChunk (document ls ++ tail) s).
  { apply addChunk_spread_within. rewrite Hb. cbn [app].
    now rewrite (split_document _ _ Hls Hu Ht), removelast_last, length_map. }
  destruct (addChunk_document ls tail s Hb Hls Hu Ht) as [E1 E2].
  split; [now rewrite W|].
  unfold bind in E2 |- *. now rewrite W.
Qed.

Lemma addChunk_spread_document_witness :
  let ls := [(lit "0", ending_LF); (lit "SECTION", ending_CRLF); ([], ending_CR);
             (lit "2", ending_CR)] in
  let chunk := lit "0" ++ [LF] ++ lit "SECTION" ++ [CR; LF; CR] ++ lit "2" ++ [CR]
               ++ lit "HEADER" in
  document ls ++ lit "HEADER" = chunk /\
  addChunk_spread 4 chunk new_DxfStreamScanner
  = (Returns 4,
     set_lines [lit "0"; lit "SECTION"; []; lit "2"]
       (set_buffer (lit "HEADER") new_DxfStreamScanner)) /\
  lines (snd ((addChunk_spread 4 chunk ;; finalize) new_DxfStreamScanner))
  = [lit "0"; lit "SECTION"; []; lit "2"; lit "HEADER"].
Proof.
  cbv zeta. split; [reflexivity|].
  apply (addChunk_spread_document 4
           [(lit "0", ending_LF); (lit "SECTION", ending_CRLF); ([], ending_CR);
            (lit "2", ending_CR)] (lit "HEADER") new_DxfStreamScanner);
    try reflexivity; try (apply Nat.leb_le; reflexivity).
  repeat constructor.
Defined.

(** X5: on a host that takes at most [maxArguments] arguments in a call, a
    new scanner that is fed a text in chunks (none cut between a carriage
    return and its line feed) and then finalized holds the lines that
    splitting the whole text at once gives, less the empty string that the
    split leaves after a final line ending, provided the whole text
    completes no more than [maxArguments] lines. *)
Theorem finalized_lines_within_limit maxArguments chunk more :
  cuts_outside_CRLF chunk more = true ->
  (List.length (removelast (split (chunk ++ List.concat more))) <= maxArguments)%nat ->
  let whole := chunk ++ List.concat more in
  lines (snd ((addChunks_spread maxArguments (chunk :: more) ;; finalize)
                new_DxfStreamScanner))
  = match last (split whole) [] with
    | [] => removelast (split whole)
    | _ => split whole
    end.
Proof.
  intros Hcuts Hn. cbv zeta.
  pose proof (addChunks_spread_within maxArguments (chunk :: more) new_DxfStreamScanner
                (chunks_within_whole _ _ _ new_DxfStreamScanner Hcuts Hn)) as E1.
  pose proof (finalized_lines_are_the_split chunk more Hcuts) as F. cbv zeta in F.
  unfold bind in F |- *. now rewrite E1.
Qed.

Lemma finalized_lines_within_limit_witness :
  lines (snd ((addChunks_spread 2
                 [lit "0" ++ [LF] ++ lit "SEC"; lit "TION" ++ [CR; LF] ++ lit "2"]
               ;; finalize) new_DxfStreamScanner))
  = [lit "0"; lit "SECTION"; lit "2"] /\
  lines (snd ((addChunks_spread 2
                 [lit "0" ++ [LF] ++ lit "SEC"; lit "TION" ++ [CR; LF]]
               ;; finalize) new_DxfStreamScanner))
  = [lit "0"; lit "SECTION"].
Proof.
  split.
  - apply (finalized_lines_within_limit 2 (lit "0" ++ [LF] ++ lit "SEC")
             [lit "TION" ++ [CR; LF] ++ lit "2"]);
      [reflexivity | apply Nat.leb_le; reflexivity].
  - apply (finalized_lines_within_limit 2 (lit "0" ++ [LF] ++ lit "SEC")
             [lit "TION" ++ [CR; LF]]);
      [reflexivity | apply Nat.leb_le; reflexivity].
Defined.

(** X19: beyond the limit the lines are lost.  When the chunk of X3 holds
    more than [maxArguments] lines, [addChunk] throws a [RangeError]; the
    completed lines stay as they were, none of the chunk's lines is kept,
    and the buffer holds only the unfinished last line. *)
Theorem addChunk_spread_document_beyond maxArguments ls tail s :
  buffer s = [] ->
  Forall (fun l => terminatorFree l = true) (map fst ls) ->
  endings_unambiguous ls = true ->
  terminatorFree tail = true ->
  (maxArguments < List.length ls)%nat ->
  addChunk_spread maxArguments (document ls ++ tail) s
  = (Throws RangeError, set_buffer tail s).
Proof.
  intros Hb Hls Hu Ht Hn.
  rewrite addChunk_spread_beyond; rewrite Hb; cbn [app];
    rewrite (split_document _ _ Hls Hu Ht).
  - now rewrite last_last.
  - now rewrite removelast_last, length_map.
Qed.

Lemma addChunk_spread_document_beyond_witness :
  let ls := [(lit "0", ending_LF); (lit "SECTION", ending_CRLF); (lit "2", ending_CR)] in
  let s := snd (addChunk_spread 2 (document ls ++ lit "HEA") new_DxfStreamScanner) in
  fst (addChunk_spread 2 (document ls ++ lit "HEA") new_DxfStreamScanner)
  = Throws RangeError /\
  lines s = [] /\ buffer s = lit "HEA".
Proof.
  cbv zeta.
  assert (F : Forall (fun l => terminatorFree l = true)
                (map fst [(lit "0", ending_LF); (lit "SECTION", ending_CRLF);
                          (lit "2", ending_CR)])) by (repeat constructor).
  assert (L : (2 < 3)%nat) by (apply Nat.ltb_lt; reflexivity).
  rewrite (addChunk_spread_document_beyond 2
             [(lit "0", ending_LF); (lit "SECTION", ending_CRLF); (lit "2", ending_CR)]
             (lit "HEA") new_DxfStreamScanner eq_refl F eq_refl eq_refl L).
  now repeat split.
Defined.
